(** * Synth: oscillator, MIDI controller and audio device

    A shallow embedding of [src/src/Oscillator.cpp],
    [src/src/MidiController.cpp], [src/src/AudioDevice.cpp] and of the
    templated [play] of [src/AudioDevice.hpp].

    Conventions of the embedding.
    - A C++ [double] is a real number of [R]: rounding, infinities and NaN
      are outside the model.  The libm functions are their real
      counterparts: [fabs] is [Rabs], [fmin]/[fmax] are [Rmin]/[Rmax],
      [pow(2.0, x)] is [Rpower 2 x], [sin] is [sin].  A division by a
      sample rate of 0 is outside the model for the same reason, so the
      statements about increments are made for positive rates, and the
      statements about samples and frequencies are kept to what rounding
      cannot change.
    - [size_t] and [unsigned long] values are naturals ([nat], [N]), [int]
      values are integers of [Z]; where the code converts between widths
      (an [unsigned int] or a [long] read into an [int], an
      [unsigned long] sent through a [double], a product of [size_t]
      values) the wrap-around, the rounding or the undefined conversion is
      written out.
    - Calls into ALSA are answered by a script carried in the state, and
      every call is appended to a log, so that the order and number of
      hardware calls can be stated.
    - [exit], a failed [assert] and undefined behaviour are outcomes of
      their own. *)

From Stdlib Require Import Reals Lra ZArith Lia List.
From Stdlib Require String.
From stdpp Require Import gmap list.

(** ** Oscillator.cpp *)

Module Osc.

Local Open Scope R_scope.

(** Modelled from the spec: [TWOPI] and [PI] are macros of
    [Definitions.hpp], which is absent; the spec bounds the phase by 2π, so
    [PI] is the real π and [TWOPI] is twice it. *)
Definition TWOPI : R := 2 * PI.

(** Modelled from the spec: [enum OscillatorWave] is declared in
    [Oscillator.hpp], which is absent; the four wave forms are the ones the
    spec lists and the code switches on. *)
Inductive OscillatorWave :=
  | OSCILLATOR_WAVE_SINE
  | OSCILLATOR_WAVE_SAW
  | OSCILLATOR_WAVE_SQUARE
  | OSCILLATOR_WAVE_TRIANGLE.

(** Modelled from the spec: the class is declared in [Oscillator.hpp]; its
    state is [{mode, freq, pitch, phase, phaseIncrement, muted, lastOut,
    useNaive}], under the member names the code uses. *)
Record Oscillator := mkOscillator {
  _mode : OscillatorWave;
  _freq : R;
  _pitch : R;
  _phase : R;
  _phaseIncrement : R;
  _muted : bool;
  _lastOut : R;
  _useNaive : bool
}.

(** [(double) rate] for the [unsigned long] static member [Oscillator::rate]. *)
Definition double_of_ulong (n : N) : R := IZR (Z.of_N n).

(** The initial value of the static member: [Oscillator::rate = 44100.0]. *)
Definition default_rate : N := 44100%N.

Definition with_mode (m : OscillatorWave) (o : Oscillator) : Oscillator :=
  mkOscillator m (_freq o) (_pitch o) (_phase o) (_phaseIncrement o)
               (_muted o) (_lastOut o) (_useNaive o).
Definition with_freq (f : R) (o : Oscillator) : Oscillator :=
  mkOscillator (_mode o) f (_pitch o) (_phase o) (_phaseIncrement o)
               (_muted o) (_lastOut o) (_useNaive o).
Definition with_pitch (p : R) (o : Oscillator) : Oscillator :=
  mkOscillator (_mode o) (_freq o) p (_phase o) (_phaseIncrement o)
               (_muted o) (_lastOut o) (_useNaive o).
Definition with_phase (p : R) (o : Oscillator) : Oscillator :=
  mkOscillator (_mode o) (_freq o) (_pitch o) p (_phaseIncrement o)
               (_muted o) (_lastOut o) (_useNaive o).
Definition with_phaseIncrement (i : R) (o : Oscillator) : Oscillator :=
  mkOscillator (_mode o) (_freq o) (_pitch o) (_phase o) i
               (_muted o) (_lastOut o) (_useNaive o).
Definition with_muted (b : bool) (o : Oscillator) : Oscillator :=
  mkOscillator (_mode o) (_freq o) (_pitch o) (_phase o) (_phaseIncrement o)
               b (_lastOut o) (_useNaive o).
Definition with_lastOut (v : R) (o : Oscillator) : Oscillator :=
  mkOscillator (_mode o) (_freq o) (_pitch o) (_phase o) (_phaseIncrement o)
               (_muted o) v (_useNaive o).
Definition with_useNaive (b : bool) (o : Oscillator) : Oscillator :=
  mkOscillator (_mode o) (_freq o) (_pitch o) (_phase o) (_phaseIncrement o)
               (_muted o) (_lastOut o) b.

(** [Oscillator::setIncrement], reading the static [rate]. *)
Definition setIncrement (rate : N) (o : Oscillator) : Oscillator :=
  let pitchModAsFrequency := Rpower 2 (Rabs (_pitch o) * 14) - 1 in
  let pitchModAsFrequency :=
    if Rlt_dec (_pitch o) 0 then - pitchModAsFrequency
    else pitchModAsFrequency in
  let freq :=
    Rmin (Rmax (_freq o + pitchModAsFrequency) 0) (double_of_ulong rate / 2) in
  with_phaseIncrement (freq * TWOPI / double_of_ulong rate) o.

(** The constructor: the member initialisers, then [setIncrement()]. *)
Definition new_Oscillator (rate : N) : Oscillator :=
  setIncrement rate
    (mkOscillator OSCILLATOR_WAVE_SQUARE 440 0 0 0 false 0 false).

Definition setMode (mode : OscillatorWave) (o : Oscillator) : Oscillator :=
  with_mode mode o.

Definition setFreq (rate : N) (freq : R) (o : Oscillator) : Oscillator :=
  setIncrement rate (with_freq freq o).

Definition setPitch (rate : N) (pitch : R) (o : Oscillator) : Oscillator :=
  setIncrement rate (with_pitch pitch o).

Definition mute (o : Oscillator) : Oscillator := with_muted true o.
Definition unmute (o : Oscillator) : Oscillator := with_muted false o.
Definition useNaive (b : bool) (o : Oscillator) : Oscillator :=
  with_useNaive b o.

(** [Oscillator::polyBlep]. *)
Definition polyBlep (o : Oscillator) (t : R) : R :=
  let dt := _phaseIncrement o / TWOPI in
  if Rlt_dec t dt then
    let t := t / dt in t + t - t * t - 1
  else if Rgt_dec t (1 - dt) then
    let t := (t - 1) / dt in t * t + t + t + 1
  else 0.

(** [Oscillator::naiveWave]. *)
Definition naiveWave (o : Oscillator) : R :=
  match _mode o with
  | OSCILLATOR_WAVE_SINE => sin (_phase o)
  | OSCILLATOR_WAVE_SAW => (2 * _phase o / TWOPI) - 1
  | OSCILLATOR_WAVE_SQUARE => if Rlt_dec (_phase o) PI then 1 else -1
  | OSCILLATOR_WAVE_TRIANGLE =>
      let value := -1 + (2 * _phase o / TWOPI) in
      2 * (Rabs value - 0.5)
  end.

(** libm's [fmod]: [x - n * y] with [n] the quotient [x / y] truncated
    towards zero. *)
Definition trunc (x : R) : Z :=
  if Rlt_dec x 0 then (- Int_part (- x))%Z else Int_part x.
Definition fmod (x y : R) : R := x - IZR (trunc (x / y)) * y.

(** The loop [while (_phase >= TWOPI) _phase -= TWOPI;], one unit of fuel
    per iteration. *)
Fixpoint wrap_phase (fuel : nat) (phase : R) : option R :=
  if Rge_dec phase TWOPI then
    match fuel with
    | O => None
    | S fuel' => wrap_phase fuel' (phase - TWOPI)
    end
  else Some phase.

(** The label [increment:] of [next] and what follows it. *)
Definition increment (fuel : nat) (value : R) (o : Oscillator)
  : option (R * Oscillator) :=
  match wrap_phase fuel (_phase o + _phaseIncrement o) with
  | Some p => Some (value, with_phase p o)
  | None => None
  end.

(** [Oscillator::next]: the sample returned and the oscillator after the
    call; [None] when the fuel of the wrapping loop runs out. *)
Definition next (fuel : nat) (o : Oscillator) : option (R * Oscillator) :=
  let value := 0 in
  let t := _phase o / TWOPI in
  if _muted o then Some (value, o)
  else if _useNaive o then increment fuel (naiveWave o) o
  else
    match _mode o with
    | OSCILLATOR_WAVE_SINE => increment fuel (naiveWave o) o
    | OSCILLATOR_WAVE_SAW => increment fuel (naiveWave o - polyBlep o t) o
    | m =>
        let value := naiveWave o in
        let value := value + polyBlep o t in
        let value := value - polyBlep o (fmod (t + 0.5) 1) in
        match m with
        | OSCILLATOR_WAVE_TRIANGLE =>
            let value :=
              _phaseIncrement o * value
              + (1 - _phaseIncrement o) * _lastOut o in
            increment fuel value (with_lastOut value o)
        | _ => increment fuel value o
        end
    end.

(** The static sample rate together with one oscillator. *)
Record World := mkWorld { rate : N; osc : Oscillator }.

(** [(double) rate] for an [unsigned long] argument, as the integer the
    double stands for: up to 53 bits the value itself, beyond that the
    nearest multiple of the power of two that leaves 53 bits, ties to the
    even one. *)
Definition round_double (n : N) : N :=
  let bits := N.size n in
  if (bits <=? 53)%N then n
  else
    let e := (bits - 53)%N in
    let q := (n / 2 ^ e)%N in
    let rem := (n mod 2 ^ e)%N in
    let half := (2 ^ (e - 1))%N in
    let q' :=
      if (rem <? half)%N then q
      else if (half <? rem)%N then (q + 1)%N
      else if N.even q then q else (q + 1)%N in
    (q' * 2 ^ e)%N.

(** [Oscillator::setRate]: [Oscillator::rate = (double) rate;] converts the
    argument to [double] and back to the [unsigned long] static member, and
    touches nothing else.  The conversion back is undefined when the double
    is 2^64 ([None]). *)
Definition setRate (r : N) (w : World) : option World :=
  let stored := round_double r in
  if (stored <? 2 ^ 64)%N then Some (mkWorld stored (osc w)) else None.

(** The public operations, as calls a client can make. *)
Inductive call :=
  | CallSetMode (mode : OscillatorWave)
  | CallSetFreq (freq : R)
  | CallSetPitch (pitch : R)
  | CallSetRate (r : N)
  | CallMute
  | CallUnmute
  | CallUseNaive (b : bool)
  | CallNext.

Definition exec (fuel : nat) (c : call) (w : World) : option World :=
  match c with
  | CallSetMode m => Some (mkWorld (rate w) (setMode m (osc w)))
  | CallSetFreq f => Some (mkWorld (rate w) (setFreq (rate w) f (osc w)))
  | CallSetPitch p => Some (mkWorld (rate w) (setPitch (rate w) p (osc w)))
  | CallSetRate r => setRate r w
  | CallMute => Some (mkWorld (rate w) (mute (osc w)))
  | CallUnmute => Some (mkWorld (rate w) (unmute (osc w)))
  | CallUseNaive b => Some (mkWorld (rate w) (useNaive b (osc w)))
  | CallNext =>
      match next fuel (osc w) with
      | Some (_, o) => Some (mkWorld (rate w) o)
      | None => None
      end
  end.

Fixpoint run (fuel : nat) (cs : list call) (w : World) : option World :=
  match cs with
  | [] => Some w
  | c :: cs' =>
      match exec fuel c w with
      | Some w' => run fuel cs' w'
      | None => None
      end
  end.

(** A world in which an oscillator has just been constructed. *)
Definition fresh (r : N) : World := mkWorld r (new_Oscillator r).

(** The sample rates a call sequence sets are positive and are converted
    to a double below 2^64. *)
Definition positive_rate (c : call) : Prop :=
  match c with
  | CallSetRate r => (0 < r)%N /\ (round_double r < 2 ^ 64)%N
  | _ => True
  end.

(** A value the static member can hold when an oscillator is constructed: a
    positive [unsigned long] that is a double, as its initial value 44100 and
    every value [setRate] stores are. *)
Definition stored_rate (r : N) : Prop :=
  (0 < r < 2 ^ 64)%N /\ round_double r = r.

(** What the specification says [setIncrement] computes:
    [2π × clamp(freq + pitchOffset, 0, rate/2) / rate] with
    [pitchOffset = sign(pitch) × (2^(|pitch|×14) − 1)]. *)
Definition sign (x : R) : R :=
  if Rlt_dec x 0 then -1 else if Rgt_dec x 0 then 1 else 0.
Definition clamp (x lo hi : R) : R := Rmin (Rmax x lo) hi.
Definition spec_pitchOffset (pitch : R) : R :=
  sign pitch * (Rpower 2 (Rabs pitch * 14) - 1).
Definition spec_effectiveFreq (freq pitch : R) (rate : N) : R :=
  clamp (freq + spec_pitchOffset pitch) 0 (double_of_ulong rate / 2).
Definition spec_phaseIncrement (freq pitch : R) (rate : N) : R :=
  2 * PI * spec_effectiveFreq freq pitch rate / double_of_ulong rate.

(** The invariant that the calls maintain: the phase is wrapped and the
    increment is at most half a turn. *)
Definition inv (w : World) : Prop :=
  0 <= _phase (osc w) < TWOPI /\ 0 <= _phaseIncrement (osc w) <= PI.

End Osc.

(** ** MidiController.cpp *)

Module Midi.

Local Open Scope Z_scope.

(** Linux [errno] and ALSA sequencer event codes (system headers). *)
Definition EAGAIN : Z := 11.
Definition SND_SEQ_EVENT_NOTEON : Z := 6.
Definition SND_SEQ_EVENT_NOTEOFF : Z := 7.
Definition SND_SEQ_EVENT_CONTROLLER : Z := 10.
Definition SND_SEQ_EVENT_PITCHBEND : Z := 13.

(** The members of [snd_seq_event_t] that the code reads: [type],
    [data.note.note], [data.note.velocity], [data.control.param] and
    [data.control.value].  [data] is a union in ALSA; each branch of the
    switch reads one view of it only, so the views are kept as separate
    fields. *)
Record snd_seq_event_t := mk_snd_seq_event {
  ev_type : Z;
  data_note_note : Z;
  data_note_velocity : Z;
  data_control_param : Z;
  data_control_value : Z
}.

(** Modelled from the spec: [MidiEventType] and [MidiEvent] are declared in
    [MidiController.hpp], which is absent; the type is one of NOTE_ON,
    NOTE_OFF, CONTROL, PITCHBEND, UNHANDLED and EMPTY, and an event has the
    fields [{type, note, control, velocity, pitch}], in the order in which
    [_midi_event_process] passes them to the constructor. *)
Inductive MidiEventType :=
  | MIDI_NOTEON
  | MIDI_NOTEOFF
  | MIDI_CONTROL
  | MIDI_PITCHBEND
  | MIDI_UNHANDLED
  | MIDI_EMPTY.

#[global] Instance MidiEventType_eq_dec : EqDecision MidiEventType.
Proof. solve_decision. Defined.

Record MidiEvent := mkMidiEvent {
  type : MidiEventType;
  note : Z;
  control : R;
  velocity : R;
  pitch : R
}.

(** An [unsigned int] converted to [int] (32 bits, two's complement), as in
    [int note = ev->data.control.param]. *)
Definition to_int (z : Z) : Z := (z + 2 ^ 31) mod 2 ^ 32 - 2 ^ 31.

(** [_midi_event_process]: the normalisation of one raw event. *)
Definition _midi_event_process (ev : snd_seq_event_t) : MidiEvent :=
  let type := MIDI_UNHANDLED in
  let note := 0 in
  let control := 0%R in
  let velocity := 0%R in
  let pitch := 0%R in
  if ev_type ev =? SND_SEQ_EVENT_PITCHBEND then
    mkMidiEvent MIDI_PITCHBEND note control velocity
                (IZR (data_control_value ev) / 8192)%R
  else if ev_type ev =? SND_SEQ_EVENT_CONTROLLER then
    mkMidiEvent MIDI_CONTROL (to_int (data_control_param ev))
                (IZR (data_control_value ev) / 127)%R velocity pitch
  else if ev_type ev =? SND_SEQ_EVENT_NOTEON then
    if data_note_velocity ev >? 0 then
      mkMidiEvent MIDI_NOTEON (data_note_note ev) control
                  (IZR (data_note_velocity ev) / 127)%R pitch
    else mkMidiEvent type note control velocity pitch
  else if ev_type ev =? SND_SEQ_EVENT_NOTEOFF then
    mkMidiEvent MIDI_NOTEOFF (data_note_note ev) control velocity pitch
  else mkMidiEvent type note control velocity pitch.

(** Modelled from the spec: the class is declared in [MidiController.hpp];
    it owns frequency, velocity, pitch, the current note, the map from note
    number to on/off ([_notes], looked up with [find]) and the FIFO event
    queue ([_queue], front first), under the member names the code uses. *)
Record MidiController := mkMidiController {
  _frequency : R;
  _velocity : R;
  _pitch : R;
  _note : Z;
  _notes : gmap Z bool;
  _queue : list MidiEvent
}.

(** The constructor initialises [_frequency], [_velocity] and [_pitch];
    [_note] is left uninitialised, its value is a parameter here. *)
Definition new_MidiController (note0 : Z) : MidiController :=
  mkMidiController (-1) 0 0 note0 ∅ [].

(** The queries [frequency()], [velocity()], [pitch()] and [note()]; the
    last three names are taken by the fields of [MidiEvent]. *)
Definition frequency (c : MidiController) : R := _frequency c.
Definition velocity_of (c : MidiController) : R := _velocity c.
Definition pitch_of (c : MidiController) : R := _pitch c.
Definition note_of (c : MidiController) : Z := _note c.

(** [MidiController::noteOn]. *)
Definition noteOn (n : Z) (c : MidiController) : bool :=
  match _notes c !! n with
  | None => false
  | Some b => b
  end.

Definition noteToFrequency (n : Z) : R :=
  (440 * Rpower 2 ((IZR n - 69) / 12))%R.

(** [MidiController::input]: push at the back of the queue (the mutex makes
    the push atomic). *)
Definition input (event : MidiEvent) (c : MidiController) : MidiController :=
  mkMidiController (_frequency c) (_velocity c) (_pitch c) (_note c)
                   (_notes c) (_queue c ++ [event]).

(** Modelled from the spec: [MidiEvent event(MIDI_EMPTY)], the sentinel for
    "no event available"; the constructor is in the absent header, the
    fields other than the type are taken to be zero. *)
Definition empty_event : MidiEvent := mkMidiEvent MIDI_EMPTY 0 0 0 0.

(** [MidiController::nextEvent]: the front of the queue, popped, or an
    event of type [MIDI_EMPTY]. *)
Definition nextEvent (c : MidiController) : MidiEvent * MidiController :=
  match _queue c with
  | [] => (empty_event, c)
  | event :: rest =>
      (event,
       mkMidiController (_frequency c) (_velocity c) (_pitch c) (_note c)
                        (_notes c) rest)
  end.

(** A [double] used as a condition: true when it is not zero. *)
Definition truthy (x : R) : bool := if Req_dec_T x 0 then false else true.

(** [MidiController::process]. *)
Definition process (c : MidiController) : MidiController :=
  let c := mkMidiController (_frequency c) (_velocity c) (_pitch c) (-1)
                            (_notes c) (_queue c) in
  let (e, c) := nextEvent c in
  match type e with
  | MIDI_EMPTY => c
  | MIDI_NOTEON =>
      if truthy (velocity e) then
        mkMidiController (noteToFrequency (note e)) (velocity e) (_pitch c)
                         (note e) (<[note e := true]> (_notes c)) (_queue c)
      else c
  | MIDI_NOTEOFF =>
      mkMidiController (-1) 0 (_pitch c) (_note c)
                       (<[note e := false]> (_notes c)) (_queue c)
  | MIDI_PITCHBEND =>
      mkMidiController (_frequency c) (_velocity c) (pitch e) (_note c)
                       (_notes c) (_queue c)
  | _ => c
  end.

(** One answer of the sequencer to the capture thread: the result [r] of
    [snd_seq_event_input], the event it stored, and what
    [snd_seq_event_input_pending] would answer right after. *)
Record seq_read := mk_seq_read {
  r : Z;
  seq_event : snd_seq_event_t;
  events_pending_answer : Z
}.

Inductive thread_outcome :=
  | Running (c : MidiController)
  | Exited.

(** [_midi_event_thread] while [*collecting_events] stays true, on the
    answers the sequencer gives.  The two nested loops are flattened: leaving
    the inner [do ... while] starts the next round of the outer loop, which
    resets [set_pending] and [events_pending]. *)
Fixpoint _midi_event_thread (set_pending : bool) (events_pending : Z)
    (script : list seq_read) (c : MidiController) : thread_outcome :=
  match script with
  | [] => Running c
  | rd :: script' =>
      if r rd =? - EAGAIN then _midi_event_thread false 0 script' c
      else if r rd <? 0 then Exited
      else
        let events_pending :=
          if set_pending then events_pending
          else events_pending_answer rd in
        let c := input (_midi_event_process (seq_event rd)) c in
        let events_pending := events_pending - 1 in
        if events_pending >? 0
        then _midi_event_thread true events_pending script' c
        else _midi_event_thread false 0 script' c
  end.

(** The reads that deliver an event, and the events the thread has taken
    from a script. *)
Definition delivers (rd : seq_read) : bool := 0 <=? r rd.
Definition captured (script : list seq_read) : list MidiEvent :=
  map (fun rd => _midi_event_process (seq_event rd)) (filter delivers script).

(** The parameter state a client can query, without [note()]. *)
Record params := mkParams {
  p_frequency : R;
  p_velocity : R;
  p_pitch : R;
  p_notesOn : gmap Z bool
}.

Definition params_of (c : MidiController) : params :=
  mkParams (_frequency c) (_velocity c) (_pitch c) (_notes c).

(** The reducer as the specification words it: NOTE_ON with a positive
    velocity sets frequency, velocity and the note's flag; NOTE_OFF clears
    the flag and silences; PITCHBEND sets the pitch; the other types change
    nothing.  (The specification leaves a NOTE_ON without a positive velocity
    open; no change is made for it here.) *)
Definition spec_reduce (e : MidiEvent) (p : params) : params :=
  match type e with
  | MIDI_NOTEON =>
      if Rlt_dec 0 (velocity e) then
        mkParams (440 * Rpower 2 ((IZR (note e) - 69) / 12))%R (velocity e)
                 (p_pitch p) (<[note e := true]> (p_notesOn p))
      else p
  | MIDI_NOTEOFF =>
      mkParams (-1) 0 (p_pitch p) (<[note e := false]> (p_notesOn p))
  | MIDI_PITCHBEND =>
      mkParams (p_frequency p) (p_velocity p) (pitch e) (p_notesOn p)
  | MIDI_CONTROL | MIDI_UNHANDLED | MIDI_EMPTY => p
  end.

(** The current note after a reduction, as the specification words it for
    NOTE_ON. *)
Definition is_note_on (e : MidiEvent) : bool :=
  match type e with
  | MIDI_NOTEON => truthy (velocity e)
  | _ => false
  end.

(** A controller with another queue. *)
Definition with_queue (q : list MidiEvent) (c : MidiController)
  : MidiController :=
  mkMidiController (_frequency c) (_velocity c) (_pitch c) (_note c)
                   (_notes c) q.

(** A read that is not fatal: "no data" or an event. *)
Definition not_fatal (rd : seq_read) : Prop := r rd = - EAGAIN \/ 0 <= r rd.

(** The event [nextEvent] hands to [process]. *)
Definition front (c : MidiController) : MidiEvent := fst (nextEvent c).

End Midi.

(** ** AudioDevice.cpp and the templated [play] of AudioDevice.hpp *)

Module Audio.

(** Linux [errno] codes (system headers). *)
Definition EAGAIN : Z := 11.
Definition EPIPE : Z := 32.
Definition ESTRPIPE : Z := 86.

(** The file's constants: two channels, and the physical width of
    [SND_PCM_FORMAT_S16], 16 bits. *)
Definition channels : nat := 2.
Definition format_width : nat := 16.
Definition sizeof_int16_t : nat := 2.

(** A value converted to [int] (32 bits, two's complement). *)
Definition int_of (z : Z) : Z := ((z + 2 ^ 31) mod 2 ^ 32 - 2 ^ 31)%Z.

(** The calls made on the PCM handle, in the order they are made.  A write
    records the offset of [ptr] in the sample buffer, the frame count asked
    for and the content of the sample buffer at the time. *)
Inductive pcm_call :=
  | Writei (ptr : Z) (count : Z) (data : list Z)
  | Prepare
  | Resume
  | Sleep.

(** The PCM handle: the answers ALSA will give to [snd_pcm_writei],
    [snd_pcm_prepare] and [snd_pcm_resume], and the calls made so far. *)
Record snd_pcm_t := mk_pcm {
  writei_answers : list Z;
  prepare_answers : list Z;
  resume_answers : list Z;
  calls : list pcm_call
}.

Definition logged (c : pcm_call) (h : snd_pcm_t) : snd_pcm_t :=
  mk_pcm (writei_answers h) (prepare_answers h) (resume_answers h)
         (calls h ++ [c]).

(** Each ALSA call consumes its next answer; [None] when the script has
    none left. *)
Definition snd_pcm_writei (ptr count : Z) (data : list Z) (h : snd_pcm_t)
  : option (Z * snd_pcm_t) :=
  match writei_answers h with
  | [] => None
  | a :: rest =>
      Some (a, logged (Writei ptr count data)
                      (mk_pcm rest (prepare_answers h) (resume_answers h)
                              (calls h)))
  end.

Definition snd_pcm_prepare (h : snd_pcm_t) : option (Z * snd_pcm_t) :=
  match prepare_answers h with
  | [] => None
  | a :: rest =>
      Some (a, logged Prepare
                      (mk_pcm (writei_answers h) rest (resume_answers h)
                              (calls h)))
  end.

Definition snd_pcm_resume (h : snd_pcm_t) : option (Z * snd_pcm_t) :=
  match resume_answers h with
  | [] => None
  | a :: rest =>
      Some (a, logged Resume
                      (mk_pcm (writei_answers h) (prepare_answers h) rest
                              (calls h)))
  end.

(** The loop [while ((err = snd_pcm_resume(handle)) == -EAGAIN) sleep(1);]:
    the last answer of [snd_pcm_resume] and the handle. *)
Fixpoint resume_loop (fuel : nat) (h : snd_pcm_t) : option (Z * snd_pcm_t) :=
  match snd_pcm_resume h with
  | None => None
  | Some (err, h') =>
      if (err =? - EAGAIN)%Z then
        match fuel with
        | O => None
        | S fuel' => resume_loop fuel' (logged Sleep h')
        end
      else Some (err, h')
  end.

(** [xrun_recovery]: the value returned and the handle; [None] when the
    script has no answer left for a call it makes. *)
Definition xrun_recovery (h : snd_pcm_t) (err : Z) : option (Z * snd_pcm_t) :=
  if (err =? - EPIPE)%Z then
    match snd_pcm_prepare h with
    | None => None
    | Some (_, h') => Some (0%Z, h')
    end
  else if (err =? - ESTRPIPE)%Z then
    match resume_loop (length (resume_answers h)) h with
    | None => None
    | Some (err, h') =>
        if (err <? 0)%Z then
          match snd_pcm_prepare h' with
          | None => None
          | Some (_, h'') => Some (0%Z, h'')
          end
        else Some (0%Z, h')
    end
  else Some (err, h).

(** The members of [AudioDevice] (AudioDevice.hpp) that the constructor,
    [play] and [playSamples] use; [device_handle] is [None] for a null
    pointer. *)
Record AudioDevice := mkAudioDevice {
  samples : list Z;
  samples_bytes : nat;
  num_samples : nat;
  buffer_size : nat;
  period_size : nat;
  device_handle : option snd_pcm_t
}.

Definition with_samples (s : list Z) (d : AudioDevice) : AudioDevice :=
  mkAudioDevice s (samples_bytes d) (num_samples d) (buffer_size d)
                (period_size d) (device_handle d).
Definition with_handle (h : snd_pcm_t) (d : AudioDevice) : AudioDevice :=
  mkAudioDevice (samples d) (samples_bytes d) (num_samples d) (buffer_size d)
                (period_size d) (Some h).

(** A product of two [size_t] values (64 bits): it wraps. *)
Definition size_t_mul (a b : N) : N := ((a * b) mod 2 ^ 64)%N.

(** The constructor after the negotiation: the sizes the hardware granted,
    the handle, and a sample buffer of [samples_bytes] bytes whose content
    [malloc] leaves arbitrary. *)
Definition new_AudioDevice (granted_buffer granted_period : nat)
    (h : snd_pcm_t) (content : nat -> Z) : AudioDevice :=
  let samples_bytes :=
    N.to_nat
      (size_t_mul (size_t_mul (N.of_nat granted_period) (N.of_nat channels))
                  (N.of_nat format_width) / 8) in
  let num_samples := samples_bytes / sizeof_int16_t in
  mkAudioDevice (map content (seq 0 num_samples)) samples_bytes num_samples
                granted_buffer granted_period (Some h).

(** How a call ends: it returns, an [assert] fails, the process exits, the
    behaviour is undefined, or the script of the hardware has no answer
    left.  The state is the one reached at that point. *)
Inductive outcome :=
  | Returned (d : AudioDevice)
  | AssertFailed (d : AudioDevice)
  | Exited (d : AudioDevice)
  | Undefined
  | Stuck (d : AudioDevice).

Definition bind (o : outcome) (k : AudioDevice -> outcome) : outcome :=
  match o with
  | Returned d => k d
  | other => other
  end.

Notation "'let*' d ':=' o 'in' k" := (bind o (fun d => k))
  (at level 10, d name, o at level 100, k at level 200).

(** The [while (count > 0)] loop of [playSamples]; [ptr] is the offset of the
    pointer in the sample buffer. *)
Fixpoint playSamples_loop (fuel : nat) (ptr count : Z) (h : snd_pcm_t)
    (d : AudioDevice) : outcome :=
  if (count >? 0)%Z then
    match fuel with
    | O => Stuck (with_handle h d)
    | S fuel' =>
        match snd_pcm_writei ptr count (samples d) h with
        | None => Stuck (with_handle h d)
        | Some (ret, h) =>
            let frames := int_of ret in
            if (frames =? - EAGAIN)%Z then
              playSamples_loop fuel' ptr count h d
            else if (frames <? 0)%Z then
              match xrun_recovery h frames with
              | None => Stuck (with_handle h d)
              | Some (rc, h) =>
                  if (rc <? 0)%Z then Exited (with_handle h d)
                  else Returned (with_handle h d)
              end
            else
              playSamples_loop fuel' (ptr + frames * Z.of_nat channels)
                               (count - frames) h d
        end
    end
  else Returned (with_handle h d).

(** [AudioDevice::playSamples].  Every round of the loop consumes one answer
    of [snd_pcm_writei], so the number of answers is fuel enough. *)
Definition playSamples (d : AudioDevice) : outcome :=
  match device_handle d with
  | None => AssertFailed d
  | Some h =>
      playSamples_loop (length (writei_answers h)) 0
                       (int_of (Z.of_nat (period_size d))) h d
  end.

(** The inner loop of [play]: [samples[i] = buffer[index + i]] for [i] from
    [i] on, [n] times; [None] when a read or a write is out of bounds. *)
Fixpoint copy_loop (n i : nat) (buffer : list Z) (index : nat)
    (samples : list Z) : option (list Z) :=
  match n with
  | O => Some samples
  | S n' =>
      match buffer !! (index + i) with
      | None => None
      | Some v =>
          if decide (i < length samples)
          then copy_loop n' (S i) buffer index (<[i := v]> samples)
          else None
      end
  end.

(** The outer loop of a [play] that advances [index] by [stride]. *)
Fixpoint play_loop (fuel stride : nat) (buffer : list Z) (len index : nat)
    (d : AudioDevice) : outcome :=
  if decide (index < len) then
    match fuel with
    | O => Stuck d
    | S fuel' =>
        match copy_loop (num_samples d) 0 buffer index (samples d) with
        | None => Undefined
        | Some s =>
            let* d' := playSamples (with_samples s d) in
            play_loop fuel' stride buffer len (index + stride) d'
        end
    end
  else Returned d.

(** [AudioDevice::play] of AudioDevice.cpp.  The remainder by zero is
    undefined; past the assertion [index] grows by at least one per round,
    so [length] rounds are fuel enough. *)
Definition play (buffer : list Z) (len : nat) (d : AudioDevice) : outcome :=
  if decide (num_samples d = 0) then Undefined
  else if decide (len mod num_samples d = 0)
  then play_loop len (num_samples d) buffer len 0 d
  else AssertFailed d.

(** The templated [play] of AudioDevice.hpp at [T = int16_t]: the assertion
    and the stride use [period_size]. *)
Definition play_hpp (buffer : list Z) (len : nat) (d : AudioDevice)
  : outcome :=
  if decide (period_size d = 0) then Undefined
  else if decide (len mod period_size d = 0)
  then play_loop len (period_size d) buffer len 0 d
  else AssertFailed d.

(** What the specification says [play] does on a well-formed call: for each
    period-sized chunk in turn, copy it into the sample buffer and do one
    single-period write. *)
Fixpoint chunks (n count : nat) (l : list Z) : list (list Z) :=
  match count with
  | O => []
  | S count' => take n l :: chunks n count' (drop n l)
  end.

Fixpoint spec_play (cs : list (list Z)) (d : AudioDevice) : outcome :=
  match cs with
  | [] => Returned d
  | c :: cs' =>
      let* d' := playSamples (with_samples c d) in spec_play cs' d'
  end.

(** The calls made on the handle of a device, none for a null handle. *)
Definition calls_of (d : AudioDevice) : list pcm_call :=
  match device_handle d with
  | None => []
  | Some h => calls h
  end.

Definition calls_at (o : outcome) : option (list pcm_call) :=
  match o with
  | Returned d | AssertFailed d | Exited d | Stuck d => Some (calls_of d)
  | Undefined => None
  end.

(** Devices for the examples: a handle with the given answers to
    [snd_pcm_writei] and [snd_pcm_prepare] and no call made yet, and a device
    constructed on it with the given period and a zeroed sample buffer. *)
Definition demo_handle (writes : list Z) (prepares : list Z) : snd_pcm_t :=
  mk_pcm writes prepares [] [].
Definition demo_device (period : nat) (h : snd_pcm_t) : AudioDevice :=
  new_AudioDevice 1024 period h (fun _ => 0%Z).

End Audio.

(** ** MidiController.cpp: the rest of the file *)

Module MidiMore.
Import Midi.

Local Open Scope Z_scope.

(** A read on which the capture thread ends the process: a negative result
    other than [-EAGAIN]. *)
Definition fatal (rd : seq_read) : Prop := r rd < 0 /\ r rd <> - EAGAIN.

(** [nextEvent] called [n] times in a row: the events handed out, in the
    order of the calls, and the controller left. *)
Fixpoint drain (n : nat) (c : MidiController)
  : list MidiEvent * MidiController :=
  match n with
  | O => ([], c)
  | S n' =>
      let (e, c1) := nextEvent c in
      let (es, c2) := drain n' c1 in
      (e :: es, c2)
  end.

(** [input] called for each event of a list in turn. *)
Definition input_all (es : list MidiEvent) (c : MidiController)
  : MidiController :=
  fold_left (fun c e => input e c) es c.

(** [process] called [n] times in a row. *)
Fixpoint process_n (n : nat) (c : MidiController) : MidiController :=
  match n with
  | O => c
  | S n' => process_n n' (process c)
  end.

(** The search for the MIDI device in the constructor: [clients] are the
    name and the number of each client that [snd_seq_query_next_client]
    enumerates, in order; [client] starts at −1 and is overwritten at every
    client whose name [strcmp] finds equal to [midiDevice]. *)
Fixpoint find_client (midiDevice : String.string)
    (clients : list (String.string * Z)) (client : Z) : Z :=
  match clients with
  | [] => client
  | (name, number) :: clients' =>
      if String.eqb name midiDevice
      then find_client midiDevice clients' number
      else find_client midiDevice clients' client
  end.

(** What the constructor does with the result: [exit(1)] for a negative
    client, a connection to the client otherwise. *)
Inductive lookup_outcome :=
  | ConnectFrom (client : Z)
  | LookupExit.

Definition lookup_device (midiDevice : String.string)
    (clients : list (String.string * Z)) : lookup_outcome :=
  let client := find_client midiDevice clients (-1) in
  if client <? 0 then LookupExit else ConnectFrom client.

(** Client names for the examples. *)
Module DeviceNames.
Import String.
Local Open Scope string_scope.
Definition synth : string := "synth".
Definition kbd : string := "kbd".
Definition other : string := "other".
End DeviceNames.

(** An event as [_midi_event_process] makes them: never EMPTY, and a
    NOTE_ON only with a positive velocity. *)
Definition from_hardware (e : MidiEvent) : Prop :=
  type e <> MIDI_EMPTY /\ (type e = MIDI_NOTEON -> (0 < velocity e)%R).

End MidiMore.

(** ** AudioDevice.cpp: the negotiation with the hardware *)

Module AudioSetup.
Import Audio.

(** The file's constant [rate]. *)
Definition rate : N := 44100%N.

(** The ALSA calls of [initDevice], [setupHardware] and [setupSoftware],
    with the arguments the code chooses. *)
Inductive alsa_call :=
  | snd_pcm_open
  | snd_pcm_hw_params_any
  | snd_pcm_hw_params_set_rate_resample (val : N)
  | snd_pcm_hw_params_set_access
  | snd_pcm_hw_params_set_format
  | snd_pcm_hw_params_set_channels (n : N)
  | snd_pcm_hw_params_set_rate_near (r : N)
  | snd_pcm_hw_params_set_buffer_size_near (n : N)
  | snd_pcm_hw_params_get_buffer_size
  | snd_pcm_hw_params_set_period_size_near (n : N)
  | snd_pcm_hw_params_get_period_size
  | snd_pcm_hw_params
  | snd_pcm_sw_params_current
  | snd_pcm_sw_params_set_start_threshold (n : N)
  | snd_pcm_sw_params_set_avail_min (n : N)
  | snd_pcm_sw_params.

(** ALSA during the negotiation: the answer to each call to come, as the
    value returned and the value stored through the call's out-parameter
    (the handle for [snd_pcm_open]; unused by the calls that have none), and
    the calls made so far. *)
Record alsa := mk_alsa {
  answers : list (Z * N);
  made : list alsa_call
}.

(** How a step of the negotiation ends. *)
Inductive result (A : Type) :=
  | Ok (a : A) (s : alsa)
  | Exit (s : alsa)
  | Aborted (s : alsa)
  | DivisionByZero (s : alsa)
  | NoAnswer (s : alsa).
Arguments Ok {A}.
Arguments Exit {A}.
Arguments Aborted {A}.
Arguments DivisionByZero {A}.
Arguments NoAnswer {A}.

Definition M (A : Type) : Type := alsa -> result A.

Definition ret {A : Type} (a : A) : M A := fun s => Ok a s.

Definition mbind {A B : Type} (m : M A) (k : A -> M B) : M B :=
  fun s =>
    match m s with
    | Ok a s' => k a s'
    | Exit s' => Exit s'
    | Aborted s' => Aborted s'
    | DivisionByZero s' => DivisionByZero s'
    | NoAnswer s' => NoAnswer s'
    end.

Notation "'let!' x ':=' m 'in' k" := (mbind m (fun x => k))
  (at level 10, x name, m at level 100, k at level 200).
Notation "'run!' m 'in' k" := (mbind m (fun _ => k))
  (at level 10, m at level 100, k at level 200).

(** One ALSA call: it is recorded and takes the next answer. *)
Definition call (c : alsa_call) : M (Z * N) :=
  fun s =>
    match answers s with
    | [] => NoAnswer (mk_alsa [] (made s ++ [c]))
    | a :: rest => Ok a (mk_alsa rest (made s ++ [c]))
    end.

(** [chk_err]: a negative [err] prints the message and exits. *)
Definition chk_err (err : Z) : M unit :=
  fun s => if (err <? 0)%Z then Exit s else Ok tt s.

Definition exit {A : Type} : M A := fun s => Exit s.

(** [assert(this->device_handle)]; the handle is a word, 0 for null. *)
Definition assert_handle (handle : N) : M unit :=
  fun s => if decide (handle = 0%N) then Aborted s else Ok tt s.

(** [AudioDevice::initDevice]: the handle opened. *)
Definition initDevice : M N :=
  let! a := call snd_pcm_open in
  run! chk_err (fst a) in
  ret (snd a).

(** [AudioDevice::setupHardware]: the buffer size and the period size
    granted. *)
Definition setupHardware (handle : N) : M (N * N) :=
  run! assert_handle handle in
  let! a := call snd_pcm_hw_params_any in
  run! chk_err (fst a) in
  let! a := call (snd_pcm_hw_params_set_rate_resample 1%N) in
  run! chk_err (fst a) in
  let! a := call snd_pcm_hw_params_set_access in
  run! chk_err (fst a) in
  let! a := call snd_pcm_hw_params_set_format in
  run! chk_err (fst a) in
  let! a := call (snd_pcm_hw_params_set_channels (N.of_nat channels)) in
  run! chk_err (fst a) in
  let! a := call (snd_pcm_hw_params_set_rate_near rate) in
  let rrate := snd a in
  run! chk_err (fst a) in
  if decide (rrate <> rate) then exit
  else
    let buffer_size := 1024%N in
    let period_size := 64%N in
    let! a := call (snd_pcm_hw_params_set_buffer_size_near buffer_size) in
    run! chk_err (fst a) in
    let! a := call snd_pcm_hw_params_get_buffer_size in
    run! chk_err (fst a) in
    let buffer_size := snd a in
    let! a := call (snd_pcm_hw_params_set_period_size_near period_size) in
    run! chk_err (fst a) in
    let! a := call snd_pcm_hw_params_get_period_size in
    run! chk_err (fst a) in
    let period_size := snd a in
    let! a := call snd_pcm_hw_params in
    run! chk_err (fst a) in
    ret (buffer_size, period_size).

(** The start threshold of [setupSoftware]:
    [(buffer_size / period_size) * period_size]. *)
Definition start_threshold (buffer_size period_size : N) : N :=
  ((buffer_size / period_size) * period_size)%N.

(** [AudioDevice::setupSoftware].  The division by a period size of 0 is
    undefined. *)
Definition setupSoftware (handle buffer_size period_size : N) : M unit :=
  run! assert_handle handle in
  let! a := call snd_pcm_sw_params_current in
  run! chk_err (fst a) in
  run! (if decide (period_size = 0%N)
        then (fun s => DivisionByZero s) else ret tt) in
  let! a := call (snd_pcm_sw_params_set_start_threshold
                    (start_threshold buffer_size period_size)) in
  run! chk_err (fst a) in
  let! a := call (snd_pcm_sw_params_set_avail_min period_size) in
  run! chk_err (fst a) in
  let! a := call snd_pcm_sw_params in
  run! chk_err (fst a) in
  ret tt.

(** The constructor [AudioDevice::AudioDevice]: [initDevice],
    [setupHardware], [setupSoftware], then the sizes and the sample buffer.
    [h] stands for the opened handle at run time and [content] for what
    [malloc] leaves in the buffer. *)
Definition AudioDevice_new (h : snd_pcm_t) (content : nat -> Z)
  : M AudioDevice :=
  let! handle := initDevice in
  let! sizes := setupHardware handle in
  run! setupSoftware handle (fst sizes) (snd sizes) in
  ret (new_AudioDevice (N.to_nat (fst sizes)) (N.to_nat (snd sizes)) h
                       content).

(** The calls of a negotiation that succeeds, for the sizes granted. *)
Definition negotiation (buffer_size period_size : N) : list alsa_call :=
  [snd_pcm_open;
   snd_pcm_hw_params_any;
   snd_pcm_hw_params_set_rate_resample 1%N;
   snd_pcm_hw_params_set_access;
   snd_pcm_hw_params_set_format;
   snd_pcm_hw_params_set_channels 2%N;
   snd_pcm_hw_params_set_rate_near 44100%N;
   snd_pcm_hw_params_set_buffer_size_near 1024%N;
   snd_pcm_hw_params_get_buffer_size;
   snd_pcm_hw_params_set_period_size_near 64%N;
   snd_pcm_hw_params_get_period_size;
   snd_pcm_hw_params;
   snd_pcm_sw_params_current;
   snd_pcm_sw_params_set_start_threshold
     (buffer_size / period_size * period_size)%N;
   snd_pcm_sw_params_set_avail_min period_size;
   snd_pcm_sw_params].

(** A script in which every call of the negotiation succeeds: [handle] is
    the handle opened, [granted_rate] the rate and [buffer_size],
    [period_size] the sizes the hardware grants. *)
Definition granting (handle granted_rate buffer_size period_size : N)
  : list (Z * N) :=
  [(0%Z, handle); (0%Z, 0%N); (0%Z, 0%N); (0%Z, 0%N); (0%Z, 0%N);
   (0%Z, 0%N); (0%Z, granted_rate); (0%Z, buffer_size); (0%Z, buffer_size);
   (0%Z, period_size); (0%Z, period_size); (0%Z, 0%N);
   (0%Z, 0%N); (0%Z, 0%N); (0%Z, 0%N); (0%Z, 0%N)].

End AudioSetup.

(** ** AudioDevice.cpp: notions for the writes of a period *)

Module AudioMore.
Import Audio.

(** A write that offers exactly the part of the period that is still to be
    written: [count] frames are left of [period], and [ptr] is past the
    samples of the frames written. *)
Definition in_window (period : Z) (c : pcm_call) : Prop :=
  match c with
  | Writei ptr count _ =>
      (0 < count <= period)%Z
      /\ ptr = ((period - count) * Z.of_nat channels)%Z
  | _ => True
  end.

(** The frames written before each of a series of partial writes that take
    [fs] frames in turn, after [acc] frames. *)
Fixpoint starts (acc : Z) (fs : list Z) : list Z :=
  match fs with
  | [] => []
  | f :: fs' => acc :: starts (acc + f) fs'
  end.

Definition total (fs : list Z) : Z := fold_right Z.add 0%Z fs.


(** The period size as [playSamples] reads it into its [int count]. *)
Definition period_of (d : AudioDevice) : Z := int_of (Z.of_nat (period_size d)).

End AudioMore.

(** ** Facts about the oscillator *)

Module OscFacts.
Import Osc.

Local Open Scope R_scope.

Lemma TWOPI_pos : 0 < TWOPI.
Proof. unfold TWOPI. pose proof PI_RGT_0. lra. Qed.

Lemma double_of_ulong_nonneg (n : N) : 0 <= double_of_ulong n.
Proof. unfold double_of_ulong. apply IZR_le. lia. Qed.

Lemma double_of_ulong_pos (n : N) : (0 < n)%N -> 0 < double_of_ulong n.
Proof. intros H. unfold double_of_ulong. apply IZR_lt. lia. Qed.

(** The pitch offset of the code is the one of the specification. *)
Lemma pitchOffset_agrees (p : R) :
  (if Rlt_dec p 0 then - (Rpower 2 (Rabs p * 14) - 1)
   else Rpower 2 (Rabs p * 14) - 1) = spec_pitchOffset p.
Proof.
  unfold spec_pitchOffset, sign.
  destruct (Rlt_dec p 0) as [Hneg | Hnneg]; [ring |].
  destruct (Rgt_dec p 0) as [Hpos | Hnpos]; [ring |].
  assert (p = 0) as -> by lra.
  rewrite Rabs_R0, Rmult_0_l, Rpower_O by lra. ring.
Qed.

Lemma phaseIncrement_setIncrement (rate : N) (o : Oscillator) :
  _phaseIncrement (setIncrement rate o)
  = spec_phaseIncrement (_freq o) (_pitch o) rate.
Proof.
  unfold setIncrement, spec_phaseIncrement, spec_effectiveFreq, clamp.
  cbn [_phaseIncrement with_phaseIncrement].
  rewrite pitchOffset_agrees. unfold TWOPI, Rdiv. ring.
Qed.

Lemma effectiveFreq_bounds (freq pitch : R) (rate : N) :
  0 <= spec_effectiveFreq freq pitch rate <= double_of_ulong rate / 2.
Proof.
  unfold spec_effectiveFreq, clamp.
  pose proof (double_of_ulong_nonneg rate) as Hr.
  set (x := freq + spec_pitchOffset pitch).
  pose proof (Rmax_r x 0) as Hm.
  split.
  - apply Rmin_glb; lra.
  - apply Rmin_r.
Qed.

(** With a positive rate the increment lies between 0 and π. *)
Lemma phaseIncrement_bounds (rate : N) (o : Oscillator) :
  (0 < rate)%N -> 0 <= _phaseIncrement (setIncrement rate o) <= PI.
Proof.
  intros Hrate. rewrite phaseIncrement_setIncrement.
  unfold spec_phaseIncrement.
  pose proof (effectiveFreq_bounds (_freq o) (_pitch o) rate) as [Hlo Hhi].
  pose proof (double_of_ulong_pos rate Hrate) as Hr.
  pose proof PI_RGT_0 as Hpi.
  set (f := spec_effectiveFreq (_freq o) (_pitch o) rate) in *.
  set (d := double_of_ulong rate) in *.
  split.
  - apply Rmult_le_pos; [| left; now apply Rinv_0_lt_compat].
    apply Rmult_le_pos; lra.
  - apply (Rmult_le_reg_r d); [exact Hr |].
    unfold Rdiv. rewrite Rmult_assoc, Rinv_l by lra.
    rewrite Rmult_1_r. nra.
Qed.

(** *** The wrapping loop *)

Lemma wrap_phase_below (fuel : nat) (p : R) :
  p < TWOPI -> wrap_phase fuel p = Some p.
Proof.
  intros Hp. destruct fuel; cbn; destruct (Rge_dec p TWOPI); auto; lra.
Qed.

Lemma wrap_phase_range (fuel : nat) : forall p q,
  0 <= p -> wrap_phase fuel p = Some q -> 0 <= q < TWOPI.
Proof.
  induction fuel as [| fuel IH]; intros p q Hp Hw; cbn in Hw;
    destruct (Rge_dec p TWOPI) as [Hge | Hlt]; try discriminate.
  - injection Hw as <-. lra.
  - apply (IH (p - TWOPI)); [lra | exact Hw].
  - injection Hw as <-. lra.
Qed.

Lemma wrap_phase_once (fuel : nat) (p : R) :
  p < 2 * TWOPI -> exists q, wrap_phase (S fuel) p = Some q.
Proof.
  intros Hp. cbn. destruct (Rge_dec p TWOPI) as [Hge | Hlt].
  - exists (p - TWOPI). apply wrap_phase_below. lra.
  - now exists p.
Qed.

(** The loop ends from every phase: some amount of fuel is enough. *)
Lemma wrap_phase_terminates (p : R) : exists fuel q, wrap_phase fuel p = Some q.
Proof.
  assert (Hn : forall n p, p < INR n * TWOPI + TWOPI ->
                    exists q, wrap_phase n p = Some q).
  { induction n as [| n IH]; intros p0 Hp0.
    - exists p0. apply wrap_phase_below. cbn in Hp0. lra.
    - cbn. destruct (Rge_dec p0 TWOPI) as [Hge | Hlt]; [| now exists p0].
      apply IH. rewrite S_INR in Hp0. lra. }
  pose proof TWOPI_pos as Ht.
  destruct (Rle_dec p 0) as [Hle | Hgt].
  - exists 0%nat, p. apply wrap_phase_below. lra.
  - pose proof (archimed (p / TWOPI)) as [Hup _].
    assert (Hz : (0 <= up (p / TWOPI))%Z).
    { apply le_IZR. left. apply Rle_lt_trans with (p / TWOPI); [| exact Hup].
      apply Rmult_le_pos; [lra | left; now apply Rinv_0_lt_compat]. }
    exists (Z.to_nat (up (p / TWOPI))).
    apply Hn. rewrite INR_IZR_INZ, Z2Nat.id by exact Hz.
    apply (Rmult_lt_compat_r TWOPI) in Hup; [| exact Ht].
    unfold Rdiv in Hup. rewrite Rmult_assoc, Rinv_l, Rmult_1_r in Hup; lra.
Qed.

(** *** The invariant of a world *)

Lemma inv_fresh (r0 : N) : (0 < r0)%N -> inv (fresh r0).
Proof.
  intros Hr. split.
  - cbn. pose proof TWOPI_pos. lra.
  - apply phaseIncrement_bounds, Hr.
Qed.

Lemma increment_inv (fuel : nat) (value : R) (o : Oscillator) :
  0 <= _phase o < TWOPI -> 0 <= _phaseIncrement o <= PI ->
  (exists q, increment (S fuel) value o = Some (value, with_phase q o)) /\
  (forall n v o', increment n value o = Some (v, o') ->
     0 <= _phase o' < TWOPI /\ _phaseIncrement o' = _phaseIncrement o).
Proof.
  intros Hp Hi. unfold increment. split.
  - destruct (wrap_phase_once fuel (_phase o + _phaseIncrement o)) as [q Hq].
    { unfold TWOPI in *. lra. }
    exists q. now rewrite Hq.
  - intros n v o' H.
    destruct (wrap_phase n (_phase o + _phaseIncrement o)) as [q |] eqn:Hq;
      [| discriminate].
    injection H as _ <-. cbn. split; [| reflexivity].
    apply (wrap_phase_range n (_phase o + _phaseIncrement o)); [lra | exact Hq].
Qed.

Lemma next_inv (o : Oscillator) :
  0 <= _phase o < TWOPI -> 0 <= _phaseIncrement o <= PI ->
  (forall fuel, exists v o', next (S fuel) o = Some (v, o')) /\
  (forall n v o', next n o = Some (v, o') ->
     0 <= _phase o' < TWOPI /\ _phaseIncrement o' = _phaseIncrement o).
Proof.
  intros Hp Hi.
  assert (Hinc : forall value o1,
            _phase o1 = _phase o -> _phaseIncrement o1 = _phaseIncrement o ->
            (forall fuel, exists v o', increment (S fuel) value o1 = Some (v, o')) /\
            (forall n v o', increment n value o1 = Some (v, o') ->
               0 <= _phase o' < TWOPI
               /\ _phaseIncrement o' = _phaseIncrement o)).
  { intros value o1 E1 E2.
    assert (Hp1 : 0 <= _phase o1 < TWOPI) by (rewrite E1; exact Hp).
    assert (Hi1 : 0 <= _phaseIncrement o1 <= PI) by (rewrite E2; exact Hi).
    split.
    - intros fuel.
      destruct (increment_inv fuel value o1 Hp1 Hi1) as [[q Hq] _]. eauto.
    - intros n v o' H.
      destruct (increment_inv 0 value o1 Hp1 Hi1) as [_ Hr].
      rewrite <- E2. eapply Hr, H. }
  unfold next.
  destruct (_muted o).
  { split; [intros; eauto |].
    intros n v o' H. injection H as _ <-. auto. }
  destruct (_useNaive o); [now apply Hinc |].
  destruct (_mode o); now apply Hinc.
Qed.

Lemma round_double_pos (r : N) : (0 < r)%N -> (0 < round_double r)%N.
Proof.
  intros Hr. unfold round_double.
  destruct (N.leb_spec (N.size r) 53) as [_ | Hbits]; [exact Hr |].
  set (e := (N.size r - 53)%N).
  assert (Hpow : (2 ^ e <= r)%N).
  { apply N.le_trans with (2 ^ N.log2 r)%N; [| now apply N.log2_spec].
    apply N.pow_le_mono_r; [lia |].
    unfold e. rewrite N.size_log2 by lia. lia. }
  assert (Hpos : (0 < 2 ^ e)%N) by (apply N.neq_0_lt_0, N.pow_nonzero; lia).
  assert (Hq : (0 < r / 2 ^ e)%N) by (apply N.div_str_pos; lia).
  cbn zeta.
  destruct (_ <? _)%N; [nia |].
  destruct (_ <? _)%N; [nia |].
  destruct (N.even _); nia.
Qed.

Lemma exec_inv (c : call) (w : World) :
  (0 < rate w)%N -> inv w -> positive_rate c ->
  (forall fuel, exists w', exec (S fuel) c w = Some w') /\
  (forall n w', exec n c w = Some w' -> (0 < rate w')%N /\ inv w').
Proof.
  intros Hr [Hp Hi] Hc.
  destruct c as [m | f | p | r | | | b |]; cbn [exec positive_rate] in *;
    try (split; [intros; eauto |]; intros n w' H; injection H as <-;
         split; [exact Hr |]; split;
         first [exact Hp | exact Hi | apply phaseIncrement_bounds, Hr]).
  - destruct Hc as [Hpos Hlt]. unfold setRate.
    destruct (N.ltb_spec (round_double r) (2 ^ 64)) as [_ | Hge]; [| lia].
    split; [intros; eauto |].
    intros n w' H. injection H as <-.
    split; [now apply round_double_pos |]. split; [exact Hp | exact Hi].
  - destruct (next_inv (osc w) Hp Hi) as [Hex Hall]. split.
    + intros fuel. destruct (Hex fuel) as (v & o' & ->). eauto.
    + intros n w' H.
      destruct (next n (osc w)) as [[v o'] |] eqn:E; [| discriminate].
      injection H as <-. destruct (Hall n v o' E) as [Hp' Hi'].
      split; [exact Hr |]. split; cbn; [exact Hp' | now rewrite Hi'].
Qed.

Lemma run_inv (cs : list call) : forall w,
  (0 < rate w)%N -> inv w -> Forall positive_rate cs ->
  (forall fuel, exists w', run (S fuel) cs w = Some w') /\
  (forall n w', run n cs w = Some w' -> inv w').
Proof.
  induction cs as [| c cs IH]; intros w Hr Hinv Hcs.
  - split; [intros; cbn; eauto |]. intros n w' H. now injection H as <-.
  - apply Forall_cons in Hcs as [Hc Hcs].
    destruct (exec_inv c w Hr Hinv Hc) as [Hex Hall]. split.
    + intros fuel. destruct (Hex fuel) as [w1 E1]. cbn. rewrite E1.
      destruct (Hall _ _ E1) as [Hr1 Hinv1].
      apply (IH w1 Hr1 Hinv1 Hcs).
    + intros n w' H. cbn in H.
      destruct (exec n c w) as [w1 |] eqn:E1; [| discriminate].
      destruct (Hall _ _ E1) as [Hr1 Hinv1].
      now apply (IH w1 Hr1 Hinv1 Hcs) in H.
Qed.

(** An unmuted [next] whose advanced phase needs no wrapping. *)
Lemma next_unmuted_phase (fuel : nat) (o : Oscillator) :
  _muted o = false -> _phase o + _phaseIncrement o < TWOPI ->
  exists v o', next fuel o = Some (v, o')
               /\ _phase o' = _phase o + _phaseIncrement o.
Proof.
  intros Hm Hlt. unfold next. rewrite Hm.
  destruct (_useNaive o); [| destruct (_mode o)]; unfold increment;
    cbn [_phase _phaseIncrement with_lastOut];
    rewrite (wrap_phase_below fuel _ Hlt); eauto.
Qed.

Lemma phaseIncrement_default :
  _phaseIncrement (new_Oscillator default_rate) = 440 * TWOPI / 44100.
Proof.
  unfold new_Oscillator. rewrite phaseIncrement_setIncrement.
  cbn [_freq _pitch].
  unfold spec_phaseIncrement, spec_effectiveFreq, clamp, spec_pitchOffset, sign.
  destruct (Rlt_dec 0 0) as [H | _]; [lra |].
  destruct (Rgt_dec 0 0) as [H | _]; [lra |].
  change (double_of_ulong default_rate) with 44100.
  rewrite Rmult_0_l, Rplus_0_r.
  rewrite Rmax_left, Rmin_left by lra.
  unfold TWOPI, Rdiv. ring.
Qed.

(** C5. [setFreq] and [setPitch] store their argument and at once recompute
    [_phaseIncrement] as 2π × clamp(freq + pitchOffset, 0, rate/2) / rate,
    with pitchOffset = sign(pitch) × (2^(|pitch|×14) − 1); the clamped
    frequency is never negative and never above rate/2. *)
Theorem setFreq_setPitch_phaseIncrement
    (rate : N) (freq pitch : R) (o : Oscillator) :
  (_freq (setFreq rate freq o) = freq
   /\ _phaseIncrement (setFreq rate freq o)
      = spec_phaseIncrement freq (_pitch o) rate)
  /\ (_pitch (setPitch rate pitch o) = pitch
      /\ _phaseIncrement (setPitch rate pitch o)
         = spec_phaseIncrement (_freq o) pitch rate)
  /\ 0 <= spec_effectiveFreq freq pitch rate <= double_of_ulong rate / 2.
Proof.
  repeat split; try reflexivity.
  - unfold setFreq. now rewrite phaseIncrement_setIncrement.
  - unfold setPitch. now rewrite phaseIncrement_setIncrement.
  - apply effectiveFreq_bounds.
  - apply effectiveFreq_bounds.
Qed.

(** C6, as the code has it.  From an oscillator freshly constructed under a
    rate the static member can hold, along any sequence of calls whose
    [setRate] arguments are positive and are converted to a double below
    2^64, every call returns (one round of the wrapping loop is fuel enough
    for each [next]) and the phase of every state reached lies in [0, 2π). *)
Theorem phase_stays_wrapped (r0 : N) (cs : list call) :
  stored_rate r0 -> Forall positive_rate cs ->
  (exists w, run 1 cs (fresh r0) = Some w)
  /\ (forall fuel w, run fuel cs (fresh r0) = Some w ->
        0 <= _phase (osc w) < TWOPI).
Proof.
  intros [[Hr _] _] Hcs.
  destruct (run_inv cs (fresh r0) Hr (inv_fresh r0 Hr) Hcs) as [Hex Hall].
  split; [apply Hex |].
  intros fuel w H. now destruct (Hall fuel w H).
Qed.

Lemma phase_stays_wrapped_witness :
  let cs := [CallSetFreq 880; CallNext; CallSetRate 48000; CallSetPitch (1/2);
             CallMute; CallNext; CallUnmute; CallUseNaive true;
             CallSetMode OSCILLATOR_WAVE_SAW; CallNext;
             CallSetRate (2 ^ 53 + 1); CallSetFreq 440; CallNext] in
  (exists w, run 1 cs (fresh default_rate) = Some w)
  /\ (forall fuel w, run fuel cs (fresh default_rate) = Some w ->
        0 <= _phase (osc w) < TWOPI).
Proof.
  apply phase_stays_wrapped.
  - repeat split; reflexivity.
  - repeat (constructor;
            [cbn; first [exact I | split; reflexivity] |]).
    constructor.
Defined.

(** C6 fails for the positive rate 2^64 − 1: its double is 2^64, whose
    conversion back to the [unsigned long] static member is undefined, so
    after [setRate(2^64 − 1)] no state of the oscillator is determined,
    whatever the fuel and the calls that follow. *)
Lemma setRate_conversion_counterexample :
  let r := (2 ^ 64 - 1)%N in
  (0 < r < 2 ^ 64)%N
  /\ round_double r = (2 ^ 64)%N
  /\ setRate r (fresh default_rate) = None
  /\ forall fuel cs, run fuel (CallSetRate r :: cs) (fresh default_rate) = None.
Proof.
  cbn zeta. split; [split; reflexivity |]. split; [reflexivity |].
  split; [reflexivity |]. intros fuel cs. reflexivity.
Qed.

(** C1, as the code has it.  A muted [next] returns 0 and leaves the
    oscillator as it was: the test of [_muted] returns before the phase is
    advanced. *)
Theorem next_muted_returns_unchanged (fuel : nat) (o : Oscillator) :
  _muted o = true -> next fuel o = Some (0, o).
Proof. intros Hm. unfold next. now rewrite Hm. Qed.

Lemma next_muted_returns_unchanged_witness :
  next 1 (mute (new_Oscillator default_rate))
  = Some (0, mute (new_Oscillator default_rate)).
Proof. apply next_muted_returns_unchanged. reflexivity. Defined.

(** C1 fails on a default oscillator that has been muted: the muted [next]
    leaves the phase at 0, the unmuted one moves it to 440·2π/44100. *)
Lemma next_muted_phase_counterexample :
  let o := mute (new_Oscillator default_rate) in
  exists o_muted v o_unmuted,
    _muted o = true
    /\ next 1 o = Some (0, o_muted)
    /\ next 1 (unmute o) = Some (v, o_unmuted)
    /\ _phase o_muted = 0
    /\ _phase o_unmuted = 440 * TWOPI / 44100
    /\ _phase o_muted <> _phase o_unmuted.
Proof.
  intros o.
  assert (Hinc : _phaseIncrement (unmute o) = 440 * TWOPI / 44100)
    by apply phaseIncrement_default.
  assert (Hph : _phase (unmute o) = 0) by reflexivity.
  pose proof TWOPI_pos as Ht.
  destruct (next_unmuted_phase 1 (unmute o)) as (v & o' & Hn & Hp).
  { reflexivity. }
  { rewrite Hinc, Hph. lra. }
  exists o, v, o'. rewrite Hp, Hinc, Hph.
  repeat split; try reflexivity; try assumption.
  - lra.
  - change (_phase o) with 0. lra.
Qed.

End OscFacts.

(** ** Facts about the MIDI controller *)

Module MidiFacts.
Import Midi.

Local Open Scope Z_scope.

(** *** Normalisation of raw events *)

(** C2, as the code has it.  A raw note-on whose velocity is 0 is normalised
    to an event of type UNHANDLED with note 0 and every other field 0: the
    note number is not carried and the type is not NOTE_OFF. *)
Theorem noteon_velocity_zero_unhandled (ev : snd_seq_event_t) :
  ev_type ev = SND_SEQ_EVENT_NOTEON -> data_note_velocity ev = 0 ->
  _midi_event_process ev = mkMidiEvent MIDI_UNHANDLED 0 0 0 0.
Proof.
  intros Ht Hv. unfold _midi_event_process. rewrite Ht, Hv. reflexivity.
Qed.

Lemma noteon_velocity_zero_unhandled_witness :
  _midi_event_process (mk_snd_seq_event SND_SEQ_EVENT_NOTEON 60 0 0 0)
  = mkMidiEvent MIDI_UNHANDLED 0 0 0 0.
Proof. apply noteon_velocity_zero_unhandled; reflexivity. Defined.

(** C2 fails for a note-on of note 60 with velocity 0: the event made is
    UNHANDLED, not NOTE_OFF, and its note is 0, not 60. *)
Lemma noteon_velocity_zero_counterexample :
  let ev := mk_snd_seq_event SND_SEQ_EVENT_NOTEON 60 0 0 0 in
  ev_type ev = SND_SEQ_EVENT_NOTEON
  /\ data_note_velocity ev = 0
  /\ type (_midi_event_process ev) = MIDI_UNHANDLED
  /\ type (_midi_event_process ev) <> MIDI_NOTEOFF
  /\ note (_midi_event_process ev) <> data_note_note ev.
Proof. cbn. repeat split; discriminate. Qed.

(** *** The capture thread *)

Lemma with_queue_same (c : MidiController) : with_queue (_queue c) c = c.
Proof. now destruct c. Qed.

Lemma captured_cons (rd : seq_read) (script : list seq_read) :
  captured (rd :: script)
  = if delivers rd
    then _midi_event_process (seq_event rd) :: captured script
    else captured script.
Proof. unfold captured. cbn. now destruct (delivers rd). Qed.

(** C3, as the code has it.  The capture thread enqueues the normalised form
    of every event it reads, whatever its type: after reads none of which is
    fatal, the queue is the earlier queue followed by the normalised events in
    the order read, UNHANDLED ones included, and nothing else has changed. *)
Theorem thread_enqueues_every_event (script : list seq_read) :
  forall (set_pending : bool) (events_pending : Z) (c : MidiController),
  Forall not_fatal script ->
  _midi_event_thread set_pending events_pending script c
  = Running (with_queue (_queue c ++ captured script) c).
Proof.
  induction script as [| rd script IH]; intros sp ep c Hs.
  - cbn. now rewrite app_nil_r, with_queue_same.
  - apply Forall_cons in Hs as [Hrd Hs]. cbn [_midi_event_thread].
    rewrite captured_cons. unfold delivers.
    destruct (Z.eqb_spec (r rd) (- EAGAIN)) as [He | Hne].
    + rewrite (IH _ _ _ Hs), He. reflexivity.
    + destruct Hrd as [Hr | Hr]; [contradiction |].
      destruct (Z.ltb_spec (r rd) 0) as [Hlt | _]; [lia |].
      destruct (Z.leb_spec 0 (r rd)) as [_ | Hlt]; [| lia].
      destruct (_ >? 0); rewrite (IH _ _ _ Hs); unfold with_queue;
        cbn; now rewrite <- app_assoc.
Qed.

Lemma thread_enqueues_every_event_witness :
  let script :=
    [mk_seq_read 0 (mk_snd_seq_event SND_SEQ_EVENT_NOTEON 60 100 0 0) 2;
     mk_seq_read 0 (mk_snd_seq_event 8 60 100 0 0) 0;
     mk_seq_read (-11) (mk_snd_seq_event 0 0 0 0 0) 0;
     mk_seq_read 0 (mk_snd_seq_event SND_SEQ_EVENT_NOTEOFF 60 0 0 0) 1] in
  _midi_event_thread false 0 script (new_MidiController 0)
  = Running (with_queue (_queue (new_MidiController 0) ++ captured script)
                        (new_MidiController 0)).
Proof.
  apply thread_enqueues_every_event.
  repeat (constructor; [unfold not_fatal, EAGAIN; cbn; lia |]). constructor.
Defined.

(** C3 fails when the thread reads one key-pressure event (ALSA type 8, which
    the switch does not handle): the queue then holds an UNHANDLED event. *)
Lemma thread_enqueues_unhandled_counterexample :
  let ev := mk_snd_seq_event 8 60 100 0 0 in
  type (_midi_event_process ev) = MIDI_UNHANDLED
  /\ exists c,
       _midi_event_thread false 0 [mk_seq_read 0 ev 1] (new_MidiController 0)
       = Running c
       /\ _queue c = [mkMidiEvent MIDI_UNHANDLED 0 0 0 0]
       /\ Exists (fun e => type e = MIDI_UNHANDLED) (_queue c).
Proof.
  split; [reflexivity |]. eexists. split; [reflexivity |].
  split; [reflexivity |]. now constructor.
Qed.

(** *** The reducer *)

(** C4. One call of [process] takes at most one event off the queue, the
    one at its front, and folds it into the parameter state: with an empty
    queue nothing changes; a NOTE_ON whose velocity is not zero (a positive
    one in particular) becomes the current note and sets the frequency to
    440 × 2^((note − 69)/12), the velocity to the event's and the note's flag
    to true, and one whose velocity is zero changes nothing; a NOTE_OFF
    clears the note's flag and sets the frequency to −1 and the velocity to
    0 whatever other flags are set; a PITCHBEND sets the pitch and leaves
    frequency, velocity and flags; CONTROL, UNHANDLED and EMPTY change
    nothing.  Wherever the event is not a NOTE_ON of negative velocity this
    is the reference reducer. *)
Theorem process_reduces_like_reference (c : MidiController) :
  match _queue c with
  | [] =>
      _queue (process c) = [] /\ params_of (process c) = params_of c
  | e :: q =>
      _queue (process c) = q
      /\ match type e with
         | MIDI_NOTEON =>
             if Req_dec_T (velocity e) 0
             then params_of (process c) = params_of c
             else note_of (process c) = note e
                  /\ params_of (process c)
                     = mkParams
                         (440 * Rpower 2 ((IZR (note e) - 69) / 12))%R
                         (velocity e) (_pitch c)
                         (<[note e := true]> (_notes c))
         | MIDI_NOTEOFF =>
             params_of (process c)
             = mkParams (-1) 0 (_pitch c) (<[note e := false]> (_notes c))
             /\ (frequency (process c) < 0)%R
         | MIDI_PITCHBEND =>
             params_of (process c)
             = mkParams (_frequency c) (_velocity c) (pitch e) (_notes c)
         | MIDI_CONTROL | MIDI_UNHANDLED | MIDI_EMPTY =>
             params_of (process c) = params_of c
         end
      /\ (~ (type e = MIDI_NOTEON /\ (velocity e < 0)%R) ->
          params_of (process c) = spec_reduce e (params_of c))
  end.
Proof.
  unfold process, nextEvent, params_of, spec_reduce, note_of, frequency.
  destruct c as [f v p n ns q]. cbn [_queue].
  destruct q as [| e q]; cbn; [split; reflexivity |].
  destruct e as [t en ec ev ep]. cbn.
  assert (Hon : forall x : R, truthy x = if Req_dec_T x 0 then false else true)
    by reflexivity.
  destruct t; cbn.
  - rewrite !Hon. destruct (Req_dec_T ev 0) as [He | Hne]; cbn.
    + split; [reflexivity |]. split; [reflexivity |]. intros _.
      destruct (Rlt_dec 0 ev); [lra | reflexivity].
    + split; [reflexivity |]. split; [split; reflexivity |]. intros Hneg.
      destruct (Rlt_dec 0 ev); [reflexivity |].
      exfalso. apply Hneg. split; [reflexivity | lra].
  - split; [reflexivity |]. split; [split; [reflexivity | lra] |].
    intros _. reflexivity.
  - repeat split; reflexivity.
  - repeat split; reflexivity.
  - repeat split; reflexivity.
  - repeat split; reflexivity.
Qed.

Lemma process_reduces_like_reference_witness :
  let c := input (mkMidiEvent MIDI_NOTEON 60 0 (100 / 127) 0)
                 (new_MidiController 0) in
  _queue (process c) = []
  /\ note_of (process c) = 60
  /\ params_of (process c)
     = mkParams (440 * Rpower 2 ((60 - 69) / 12))%R (100 / 127)%R 0%R
                (<[60 := true]> ∅)
  /\ params_of (process c) = spec_reduce (mkMidiEvent MIDI_NOTEON 60 0 (100 / 127) 0)
                                         (params_of c).
Proof.
  intros c. pose proof (process_reduces_like_reference c) as H.
  cbn [c input new_MidiController _queue app type velocity note _pitch
       _notes] in H.
  destruct H as (Hq & Hcase & Hspec).
  destruct (Req_dec_T (100 / 127) 0) as [He | _]; [lra |].
  destruct Hcase as [Hn Hp].
  repeat split; try assumption.
  apply Hspec. intros [_ Hneg]. cbn in Hneg. lra.
Defined.

(** The round trip of the specification's test: a note-on of note 60 with
    velocity 100 and its note-off, captured by the thread and reduced by two
    calls of [process]. *)
Example process_note_on_then_off :
  let script :=
    [mk_seq_read 0 (mk_snd_seq_event SND_SEQ_EVENT_NOTEON 60 100 0 0) 0;
     mk_seq_read 0 (mk_snd_seq_event SND_SEQ_EVENT_NOTEOFF 60 0 0 0) 0] in
  exists c,
    _midi_event_thread false 0 script (new_MidiController 0) = Running c
    /\ frequency (process c) = (440 * Rpower 2 ((60 - 69) / 12))%R
    /\ velocity_of (process c) = (100 / 127)%R
    /\ noteOn 60 (process c) = true
    /\ note_of (process c) = 60
    /\ frequency (process (process c)) = (-1)%R
    /\ velocity_of (process (process c)) = 0%R
    /\ noteOn 60 (process (process c)) = false
    /\ _queue (process (process c)) = [].
Proof.
  eexists. split; [reflexivity |]. cbn. unfold truthy.
  destruct (Req_dec_T (100 / 127) 0) as [H | _]; [lra |].
  cbn. repeat split; reflexivity.
Qed.

(** C9, as the code has it.  After [process], [note()] is the note of the
    event that was at the front of the queue when that event is a NOTE_ON
    with a velocity that is not zero, and −1 in every other case: an empty
    queue, a NOTE_OFF, or any other event. *)
Theorem note_after_process (c : MidiController) :
  note_of (process c)
  = match _queue c with
    | [] => -1
    | e :: _ =>
        match type e with
        | MIDI_NOTEON => if Req_dec_T (velocity e) 0 then -1 else note e
        | _ => -1
        end
    end.
Proof.
  unfold process, nextEvent, note_of.
  destruct c as [f v p n ns q]. cbn [_queue].
  destruct q as [| e q]; cbn; [reflexivity |].
  destruct (type e); cbn; try reflexivity.
  unfold truthy. now destruct (Req_dec_T (velocity e) 0).
Qed.

(** C9 fails after a NOTE_OFF of note 60: the event clears the flag of note
    60, yet [note()] answers −1. *)
Lemma note_after_noteoff_counterexample :
  let c := input (mkMidiEvent MIDI_NOTEOFF 60 0 0 0)
                 (input (mkMidiEvent MIDI_NOTEON 60 0 (100 / 127) 0)
                        (new_MidiController 0)) in
  let c1 := process c in
  let c2 := process c1 in
  front c1 = mkMidiEvent MIDI_NOTEOFF 60 0 0 0
  /\ noteOn 60 c1 = true
  /\ noteOn 60 c2 = false
  /\ note_of c2 = -1
  /\ note_of c2 <> note (front c1).
Proof.
  cbn. unfold truthy.
  destruct (Req_dec_T (100 / 127) 0) as [H | _]; [lra |].
  cbn. repeat split; try reflexivity. discriminate.
Qed.

End MidiFacts.

(** ** Facts about the audio device *)

Module AudioFacts.
Import Audio.

Lemma int_of_small (z : Z) :
  (- 2 ^ 31 <= z < 2 ^ 31)%Z -> int_of z = z.
Proof. intros Hz. unfold int_of. rewrite Z.mod_small; lia. Qed.

(** *** [play] *)

(** The constructor makes a sample buffer of [period_size × channels]
    samples, as long as the size in bits, [period_size × channels ×
    format_width], fits in a [size_t]. *)
Lemma new_AudioDevice_sizes (gb gp : nat) (h : snd_pcm_t) (content : nat -> Z) :
  (N.of_nat gp * N.of_nat (channels * format_width) < 2 ^ 64)%N ->
  let d := new_AudioDevice gb gp h content in
  period_size d = gp
  /\ num_samples d = period_size d * channels
  /\ length (samples d) = num_samples d.
Proof.
  intros Hfit.
  assert (Hn : N.to_nat
                 (size_t_mul (size_t_mul (N.of_nat gp) (N.of_nat channels))
                             (N.of_nat format_width) / 8)
               / sizeof_int16_t
               = gp * channels).
  { unfold size_t_mul, channels, format_width, sizeof_int16_t in *.
    change (N.of_nat (2 * 16)) with 32%N in Hfit.
    change (N.of_nat 2) with 2%N. change (N.of_nat 16) with 16%N.
    rewrite (N.mod_small (N.of_nat gp * 2)) by lia.
    rewrite N.mod_small by lia.
    replace (N.of_nat gp * 2 * 16)%N with (N.of_nat (gp * 4) * 8)%N by lia.
    rewrite N.div_mul by lia. rewrite Nat2N.id.
    replace (gp * 4) with (gp * 2 * 2) by lia.
    now rewrite Nat.div_mul by lia. }
  unfold new_AudioDevice.
  cbn [period_size num_samples samples]. rewrite length_map, length_seq.
  now rewrite Hn.
Qed.

(** Whatever the size granted, the sample buffer holds [num_samples]
    samples. *)
Lemma new_AudioDevice_length (gb gp : nat) (h : snd_pcm_t) (content : nat -> Z) :
  let d := new_AudioDevice gb gp h content in
  period_size d = gp /\ buffer_size d = gb
  /\ length (samples d) = num_samples d.
Proof.
  unfold new_AudioDevice. cbn [period_size buffer_size num_samples samples].
  now rewrite length_map, length_seq.
Qed.

Section CopyLoop.

Context (buffer : list Z) (index : nat).

(** The copying loop fills the sample buffer with the chunk of the caller's
    buffer that starts at [index], when both are long enough. *)
Lemma copy_loop_spec (m i : nat) (s : list Z) :
  i + m = length s -> index + i + m <= length buffer ->
  copy_loop m i buffer index s
  = Some (take i s ++ take m (drop (index + i) buffer)).
Proof.
  revert i s. induction m as [| m IH]; intros i s Hs Hb; cbn [copy_loop].
  - rewrite take_ge by lia. cbn. now rewrite app_nil_r.
  - destruct (lookup_lt_is_Some_2 buffer (index + i)) as [v Hv]; [lia |].
    rewrite Hv. destruct (decide (i < length s)) as [Hi | Hi]; [| lia].
    rewrite IH by (rewrite ?length_insert; lia).
    rewrite (take_S_r (<[i:=v]> s) i v)
      by (apply list_lookup_insert_eq; exact Hi).
    rewrite take_insert_ge by lia.
    rewrite (drop_S buffer v (index + i) Hv).
    replace (index + S i) with (S (index + i)) by lia.
    cbn. now rewrite <- app_assoc.
Qed.

Lemma copy_loop_chunk (n : nat) (s : list Z) :
  length s = n -> index + n <= length buffer ->
  copy_loop n 0 buffer index s = Some (take n (drop index buffer)).
Proof.
  intros Hs Hb. rewrite copy_loop_spec by lia.
  cbn. now rewrite Nat.add_0_r.
Qed.

(** A copy that succeeds has read its [m] samples inside the caller's
    buffer. *)
Lemma copy_loop_reads (m i : nat) (s s' : list Z) :
  copy_loop m i buffer index s = Some s' ->
  m = 0 \/ index + i + m <= length buffer.
Proof.
  revert i s. induction m as [| m IH]; intros i s H; [now left |]. right.
  cbn [copy_loop] in H.
  destruct (buffer !! (index + i)) as [v |] eqn:Hv; [| discriminate].
  apply lookup_lt_Some in Hv.
  destruct (decide (i < length s)); [| discriminate].
  apply IH in H as [-> | H]; lia.
Qed.

End CopyLoop.

(** [playSamples] only changes the handle. *)
Lemma playSamples_loop_returned (fuel : nat) :
  forall ptr count h d d',
  playSamples_loop fuel ptr count h d = Returned d' ->
  exists h', d' = with_handle h' d.
Proof.
  induction fuel as [| fuel IH]; intros ptr count h d d' H;
    cbn [playSamples_loop] in H; destruct (count >? 0)%Z.
  - discriminate.
  - injection H as <-. eauto.
  - destruct (snd_pcm_writei ptr count (samples d) h) as [[ret h1] |];
      [| discriminate].
    destruct (int_of ret =? - EAGAIN)%Z; [now apply IH in H |].
    destruct (int_of ret <? 0)%Z; [| now apply IH in H].
    destruct (xrun_recovery h1 (int_of ret)) as [[rc h2] |]; [| discriminate].
    destruct (rc <? 0)%Z; [discriminate |]. injection H as <-. eauto.
  - injection H as <-. eauto.
Qed.

Lemma playSamples_returned (d d' : AudioDevice) :
  playSamples d = Returned d' -> exists h', d' = with_handle h' d.
Proof.
  unfold playSamples. destruct (device_handle d); [| discriminate].
  apply playSamples_loop_returned.
Qed.

(** A [play] loop whose stride is the size of the sample buffer copies and
    writes the chunks of the caller's buffer one after the other. *)
Lemma play_loop_chunks (buffer : list Z) (n len : nat) :
  0 < n ->
  forall (k fuel index : nat) (d : AudioDevice),
  num_samples d = n -> length (samples d) = n ->
  len = index + k * n -> len <= length buffer -> k <= fuel ->
  play_loop fuel n buffer len index d
  = spec_play (chunks n k (drop index buffer)) d.
Proof.
  intros Hn. induction k as [| k IH]; intros fuel index d Hd Hs Hlen Hb Hf.
  - destruct fuel; cbn; destruct (decide (index < len)); try lia; reflexivity.
  - destruct fuel as [| fuel]; [lia |]. cbn [play_loop chunks spec_play].
    destruct (decide (index < len)) as [_ | Hge]; [| lia].
    rewrite Hd, (copy_loop_chunk buffer index n) by lia.
    destruct (playSamples (with_samples (take n (drop index buffer)) d))
      as [d' | | | |] eqn:E; cbn [bind]; try reflexivity.
    apply playSamples_returned in E as [h' ->].
    rewrite drop_drop. apply IH; cbn; try lia.
    rewrite length_take, length_drop. lia.
Qed.

(** [play] fails its assertion before any call on the handle, or runs
    through the chunks of the caller's buffer: a copy into the sample buffer
    and a call of [playSamples] for each. *)
Lemma play_asserts_or_runs_chunks
    (buffer : list Z) (len : nat) (d : AudioDevice) :
  0 < period_size d ->
  num_samples d = period_size d * channels ->
  length (samples d) = num_samples d ->
  (len mod (period_size d * channels) <> 0 ->
   play buffer len d = AssertFailed d
   /\ calls_at (play buffer len d) = Some (calls_of d))
  /\ (len mod (period_size d * channels) = 0 -> len <= length buffer ->
      play buffer len d
      = spec_play (chunks (period_size d * channels)
                          (len / (period_size d * channels)) buffer) d).
Proof.
  intros Hp Hn Hs. unfold play. rewrite Hn.
  set (n := period_size d * channels) in *.
  assert (Hpos : 0 < n) by (unfold n, channels; lia).
  destruct (decide (n = 0)) as [Hz | _]; [lia |].
  split.
  - intros Hmod. destruct (decide (len mod n = 0)) as [Hm | _]; [lia |].
    split; reflexivity.
  - intros Hmod Hb. destruct (decide (len mod n = 0)) as [_ | Hm]; [| lia].
    pose proof (Nat.div_mod_eq len n) as Hdiv. rewrite Hmod in Hdiv.
    rewrite (play_loop_chunks buffer n len Hpos (len / n) len 0 d);
      try lia; [reflexivity | nia].
Qed.

(** On a device with a period of two frames, [play] of eight samples makes
    two writes of one period each, and [play] of seven samples makes none. *)
Example play_two_periods :
  let d := demo_device 2 (demo_handle [2; 2]%Z []) in
  calls_at (play [1; 2; 3; 4; 5; 6; 7; 8]%Z 8 d)
  = Some [Writei 0 2 [1; 2; 3; 4]%Z; Writei 0 2 [5; 6; 7; 8]%Z]
  /\ play [1; 2; 3; 4; 5; 6; 7]%Z 7 d = AssertFailed d.
Proof. split; reflexivity. Qed.

(** *** [playSamples] and [xrun_recovery] *)


(** C8, as the code has it.  Whenever [snd_pcm_writei] answers the underrun
    code in the loop of [playSamples], [xrun_recovery] is called once and calls
    [snd_pcm_prepare] once, no further write of that period is made and
    [playSamples] returns, whatever [snd_pcm_prepare] answered: a recovery
    attempt that fails is not an error; the next [playSamples], if the
    hardware takes the period, writes the new period from its start and
    returns.  The process exits when [snd_pcm_writei] answers a negative
    value that is none of the would-block, underrun and suspend codes, and
    it does so right after that write, with no recovery call. *)
Theorem underrun_recovers_once_and_continues
    (fuel : nat) (ptr count : Z) (h : snd_pcm_t) (d : AudioDevice)
    (rest prest : list Z) (a : Z) :
  (0 < count)%Z ->
  prepare_answers h = a :: prest ->
  (0 < period_size d)%nat /\ (Z.of_nat (period_size d) < 2 ^ 31)%Z ->
  let h' := mk_pcm rest prest (resume_answers h)
                   (calls h ++ [Writei ptr count (samples d); Prepare]) in
  (writei_answers h = (- EPIPE)%Z :: rest ->
   xrun_recovery (logged (Writei ptr count (samples d))
                         (mk_pcm rest (prepare_answers h) (resume_answers h)
                                 (calls h)))
                 (- EPIPE)
   = Some (0%Z, h')
   /\ playSamples_loop (S fuel) ptr count h d = Returned (with_handle h' d))
  /\ (forall (s : list Z) (rest' : list Z),
      rest = Z.of_nat (period_size d) :: rest' ->
      playSamples (with_samples s (with_handle h' d))
      = Returned
          (with_samples s
             (with_handle
                (mk_pcm rest' prest (resume_answers h)
                        (calls h' ++ [Writei 0 (Z.of_nat (period_size d)) s]))
                d)))
  /\ (forall (e : Z),
      writei_answers h = e :: rest ->
      (int_of e < 0)%Z -> int_of e <> (- EAGAIN)%Z ->
      int_of e <> (- EPIPE)%Z -> int_of e <> (- ESTRPIPE)%Z ->
      playSamples_loop (S fuel) ptr count h d
      = Exited
          (with_handle
             (mk_pcm rest (prepare_answers h) (resume_answers h)
                     (calls h ++ [Writei ptr count (samples d)]))
             d)).
Proof.
  intros Hc Hprep [Hp0 Hp31] h'. split; [| split].
  - intros Hw.
    assert (Hx : xrun_recovery
                   (logged (Writei ptr count (samples d))
                           (mk_pcm rest (prepare_answers h) (resume_answers h)
                                   (calls h)))
                   (- EPIPE) = Some (0%Z, h')).
    { unfold xrun_recovery. rewrite Z.eqb_refl.
      unfold snd_pcm_prepare, logged. cbn. rewrite Hprep. cbn.
      unfold h'. now rewrite <- app_assoc. }
    split; [exact Hx |].
    cbn [playSamples_loop]. destruct (Z.gtb_spec count 0) as [_ | Hle]; [| lia].
    unfold snd_pcm_writei. rewrite Hw.
    change (int_of (- EPIPE)) with (- EPIPE)%Z.
    change (- EPIPE =? - EAGAIN)%Z with false.
    change (- EPIPE <? 0)%Z with true. cbn iota.
    now rewrite Hx.
  - intros s rest' ->. subst h'. unfold playSamples.
    cbn [device_handle with_samples with_handle writei_answers length
         period_size samples].
    rewrite int_of_small by lia.
    cbn [playSamples_loop].
    destruct (Z.gtb_spec (Z.of_nat (period_size d)) 0) as [_ | Hle]; [| lia].
    unfold snd_pcm_writei. cbn [writei_answers samples].
    rewrite int_of_small by lia.
    destruct (Z.eqb_spec (Z.of_nat (period_size d)) (- EAGAIN)) as [He | _];
      [unfold EAGAIN in He; lia |].
    destruct (Z.ltb_spec (Z.of_nat (period_size d)) 0) as [Hlt | _]; [lia |].
    rewrite Z.sub_diag.
    assert (Hend : forall f p hh dd,
              playSamples_loop f p 0 hh dd = Returned (with_handle hh dd))
      by (intros [] ? ? ?; reflexivity).
    rewrite Hend. reflexivity.
  - intros e Hw Hneg Hag Hpipe Hstr.
    cbn [playSamples_loop]. destruct (Z.gtb_spec count 0) as [_ | Hle]; [| lia].
    unfold snd_pcm_writei. rewrite Hw.
    destruct (Z.eqb_spec (int_of e) (- EAGAIN)) as [He | _]; [contradiction |].
    destruct (Z.ltb_spec (int_of e) 0) as [_ | Hge]; [| lia].
    unfold xrun_recovery.
    destruct (Z.eqb_spec (int_of e) (- EPIPE)) as [He | _]; [contradiction |].
    destruct (Z.eqb_spec (int_of e) (- ESTRPIPE)) as [He | _];
      [contradiction |].
    destruct (Z.ltb_spec (int_of e) 0) as [_ | Hge]; [reflexivity | lia].
Qed.

Lemma underrun_recovers_once_and_continues_witness :
  let h := demo_handle [-32; 2]%Z [0]%Z in
  let d := demo_device 2 h in
  let h5 := demo_handle [-5; 2]%Z [0]%Z in
  let d5 := demo_device 2 h5 in
  (exists d1 d2,
     playSamples d = Returned d1
     /\ calls_of d1 = [Writei 0 2 [0; 0; 0; 0]%Z; Prepare]
     /\ playSamples (with_samples [1; 2; 3; 4]%Z d1) = Returned d2
     /\ calls_of d2 = [Writei 0 2 [0; 0; 0; 0]%Z; Prepare;
                       Writei 0 2 [1; 2; 3; 4]%Z])
  /\ (exists d3,
       playSamples d5 = Exited d3
       /\ calls_of d3 = [Writei 0 2 [0; 0; 0; 0]%Z]).
Proof.
  intros h d h5 d5. split.
  - destruct (underrun_recovers_once_and_continues 1 0 2 h d [2]%Z [] 0%Z)
      as (Hunder & Hnext & _);
      [lia | reflexivity | split; cbn; lia |].
    destruct (Hunder eq_refl) as [_ Hplay].
    specialize (Hnext [1; 2; 3; 4]%Z [] eq_refl).
    eexists _, _. split; [exact Hplay |]. split; [reflexivity |].
    split; [exact Hnext | reflexivity].
  - destruct (underrun_recovers_once_and_continues 1 0 2 h5 d5 [2]%Z [] 0%Z)
      as (_ & _ & Hexit);
      [lia | reflexivity | split; cbn; lia |].
    exists (with_handle
              (mk_pcm [2]%Z (prepare_answers h5) (resume_answers h5)
                      (calls h5 ++ [Writei 0 2 (samples d5)]))
              d5).
    split; [| reflexivity].
    apply (Hexit (-5)%Z); [reflexivity | | | |]; vm_compute; congruence.
Defined.

(** C8 fails as worded: recovery returning failure does not abort.  Here
    the write answers the underrun code and [snd_pcm_prepare], the recovery,
    answers the error [-5]: [xrun_recovery] still hands back 0,
    [playSamples] returns instead of exiting, and the next period is
    written. *)
Lemma failed_recovery_continues_counterexample :
  let h := demo_handle [-32; 2]%Z [-5]%Z in
  let d := demo_device 2 h in
  let d1 := with_handle (mk_pcm [2]%Z [] []
                                [Writei 0 2 [0; 0; 0; 0]%Z; Prepare]) d in
  snd_pcm_prepare h = Some ((-5)%Z, mk_pcm [-32; 2]%Z [] [] [Prepare])
  /\ xrun_recovery h (- EPIPE)
     = Some (0%Z, mk_pcm [-32; 2]%Z [] [] [Prepare])
  /\ playSamples d = Returned d1
  /\ playSamples d <> Exited d1
  /\ calls_at (playSamples (with_samples [1; 2; 3; 4]%Z d1))
     = Some [Writei 0 2 [0; 0; 0; 0]%Z; Prepare; Writei 0 2 [1; 2; 3; 4]%Z].
Proof. repeat split; try reflexivity. discriminate. Qed.

(** *** The templated [play] of the header *)

(** With a stride of one period and a sample buffer of two periods, a round
    that starts inside a buffer of exactly [len] samples never leads to a
    normal return: the last round reads past the end. *)
Lemma play_loop_half_stride (buffer : list Z) (p : nat) :
  0 < p ->
  forall (fuel index : nat) (d d' : AudioDevice),
  num_samples d = p * channels -> index < length buffer ->
  play_loop fuel p buffer (length buffer) index d <> Returned d'.
Proof.
  intros Hp. induction fuel as [| fuel IH]; intros index d d' Hn Hi;
    cbn [play_loop]; destruct (decide (index < length buffer)); try lia;
    [discriminate |].
  destruct (copy_loop (num_samples d) 0 buffer index (samples d))
    as [s |] eqn:Hc; [| discriminate].
  apply copy_loop_reads in Hc. rewrite Hn in Hc. unfold channels in *.
  destruct (playSamples (with_samples s d)) as [d1 | | | |] eqn:E;
    cbn [bind]; try discriminate.
  apply playSamples_returned in E as [h1 ->].
  apply IH; cbn; lia.
Qed.

(** X29. Whatever the hardware answers, the templated [play] never returns from a
    well-formed call with a buffer of exactly [len > 0] samples. *)
Lemma play_hpp_never_returns (buffer : list Z) (d d' : AudioDevice) :
  0 < period_size d -> num_samples d = period_size d * channels ->
  0 < length buffer ->
  play_hpp buffer (length buffer) d <> Returned d'.
Proof.
  intros Hp Hn Hlen. unfold play_hpp.
  destruct (decide (period_size d = 0)); [lia |].
  destruct (decide (length buffer mod period_size d = 0)); [| discriminate].
  now apply play_loop_half_stride.
Qed.


End AudioFacts.

(** ** More about the oscillator *)

Module OscProps.
Import Osc OscFacts.

Local Open Scope R_scope.

(** *** The wrapping loop *)

Lemma wrap_phase_steps (n : nat) : forall p,
  0 <= p < INR (S n) * TWOPI ->
  exists k, (k <= n)%nat
    /\ 0 <= p - INR k * TWOPI < TWOPI
    /\ (forall fuel, (k <= fuel)%nat ->
          wrap_phase fuel p = Some (p - INR k * TWOPI))
    /\ (forall fuel, (fuel < k)%nat -> wrap_phase fuel p = None).
Proof.
  pose proof TWOPI_pos as Ht.
  assert (Hbase : forall p, 0 <= p < TWOPI ->
            exists k, (k <= 0)%nat
              /\ 0 <= p - INR k * TWOPI < TWOPI
              /\ (forall fuel, (k <= fuel)%nat ->
                    wrap_phase fuel p = Some (p - INR k * TWOPI))
              /\ (forall fuel, (fuel < k)%nat -> wrap_phase fuel p = None)).
  { intros p Hp. exists 0%nat. cbn [INR].
    replace (p - 0 * TWOPI) with p by ring.
    split; [lia |]. split; [lra |]. split.
    - intros fuel _. apply wrap_phase_below. lra.
    - intros fuel Hf. lia. }
  induction n as [| n IH]; intros p Hp.
  - apply Hbase. cbn in Hp. lra.
  - destruct (Rge_dec p TWOPI) as [Hge | Hlt].
    + destruct (IH (p - TWOPI)) as (k & Hk & Hr & Hs & Hf).
      { rewrite !S_INR in Hp. rewrite !S_INR. lra. }
      exists (S k). rewrite S_INR.
      replace (p - (INR k + 1) * TWOPI) with (p - TWOPI - INR k * TWOPI)
        by ring.
      split; [lia |]. split; [lra |]. split.
      * intros [| fuel] Hfuel; [lia |]. cbn.
        destruct (Rge_dec p TWOPI); [| lra]. apply Hs. lia.
      * intros [| fuel] Hfuel; cbn; destruct (Rge_dec p TWOPI); try lra;
          [reflexivity |]. apply Hf. lia.
    + destruct (Hbase p) as (k & Hk & H); [lra |].
      exists k. split; [lia | exact H].
Qed.

(** X1. From every phase that is not negative the wrapping loop ends after
    a definite number [k] of rounds: with [k] units of fuel or more it
    yields [p − k·2π], which lies in [0, 2π); with less it runs out. *)
Theorem wrap_phase_reduces_mod_TWOPI (p : R) :
  0 <= p ->
  exists k : nat,
    0 <= p - INR k * TWOPI < TWOPI
    /\ (forall fuel, (k <= fuel)%nat ->
          wrap_phase fuel p = Some (p - INR k * TWOPI))
    /\ (forall fuel, (fuel < k)%nat -> wrap_phase fuel p = None).
Proof.
  intros Hp. pose proof TWOPI_pos as Ht.
  pose proof (archimed (p / TWOPI)) as [Hup _].
  assert (Hdiv : 0 <= p / TWOPI).
  { apply Rmult_le_pos; [lra | left; now apply Rinv_0_lt_compat]. }
  assert (Hz : (0 <= up (p / TWOPI))%Z) by (apply le_IZR; lra).
  destruct (wrap_phase_steps (Z.to_nat (up (p / TWOPI))) p)
    as (k & _ & Hr & Hs & Hf).
  { split; [exact Hp |]. rewrite S_INR, INR_IZR_INZ, Z2Nat.id by exact Hz.
    apply (Rmult_lt_compat_r TWOPI) in Hup; [| exact Ht].
    unfold Rdiv in Hup. rewrite Rmult_assoc, Rinv_l, Rmult_1_r in Hup; lra. }
  exists k. auto.
Qed.

Lemma wrap_phase_reduces_mod_TWOPI_witness :
  exists k : nat,
    0 <= 7 - INR k * TWOPI < TWOPI
    /\ (forall fuel, (k <= fuel)%nat ->
          wrap_phase fuel 7 = Some (7 - INR k * TWOPI))
    /\ (forall fuel, (fuel < k)%nat -> wrap_phase fuel 7 = None).
Proof. apply wrap_phase_reduces_mod_TWOPI. lra. Defined.

(** *** What [next] changes *)

Lemma increment_frame (fuel : nat) (value : R) (o : Oscillator) v o' :
  increment fuel value o = Some (v, o') ->
  v = value /\ o' = with_phase (_phase o') o.
Proof.
  unfold increment.
  destruct (wrap_phase fuel (_phase o + _phaseIncrement o)); [| discriminate].
  intros [= <- <-]. now destruct o.
Qed.

(** X2. [next] never touches the mode, the frequency, the pitch, the
    increment or the two flags; it stores the sample in [_lastOut] in
    TRIANGLE mode when neither muted nor naive, and leaves [_lastOut] alone
    in every other case. *)
Theorem next_frame (fuel : nat) (o o' : Oscillator) (v : R) :
  next fuel o = Some (v, o') ->
  _mode o' = _mode o /\ _freq o' = _freq o /\ _pitch o' = _pitch o
  /\ _phaseIncrement o' = _phaseIncrement o
  /\ _muted o' = _muted o /\ _useNaive o' = _useNaive o
  /\ _lastOut o'
     = if _muted o then _lastOut o
       else if _useNaive o then _lastOut o
       else match _mode o with
            | OSCILLATOR_WAVE_TRIANGLE => v
            | _ => _lastOut o
            end.
Proof.
  unfold next. destruct (_muted o) eqn:Hm.
  { intros [= <- <-]. rewrite Hm. repeat split; reflexivity. }
  destruct (_useNaive o) eqn:Hn.
  { intros H. apply increment_frame in H as [_ ->]. cbn.
    rewrite Hm, Hn. repeat split; reflexivity. }
  destruct (_mode o) eqn:Hmode; intros H;
    apply increment_frame in H as [Hv ->]; cbn; rewrite ?Hm, ?Hn, ?Hmode;
    repeat split; auto.
Qed.

Lemma next_frame_witness :
  let o := setMode OSCILLATOR_WAVE_TRIANGLE (new_Oscillator default_rate) in
  exists v o',
    next 1 o = Some (v, o')
    /\ _mode o' = OSCILLATOR_WAVE_TRIANGLE /\ _freq o' = 440 /\ _pitch o' = 0
    /\ _phaseIncrement o' = _phaseIncrement o
    /\ _muted o' = false /\ _useNaive o' = false
    /\ _lastOut o' = v.
Proof.
  intros o.
  assert (Hp : 0 <= _phase o < TWOPI) by (cbn; pose proof TWOPI_pos; lra).
  assert (Hi : 0 <= _phaseIncrement o <= PI)
    by (apply (phaseIncrement_bounds default_rate); reflexivity).
  destruct (next_inv o Hp Hi) as [Hex _].
  destruct (Hex 0%nat) as (v & o' & Hn).
  exists v, o'. split; [exact Hn |].
  exact (next_frame 1 o o' v Hn).
Defined.

(** X3. For an unmuted oscillator whose phase is wrapped and whose
    increment is at most half a turn, [next] with any fuel returns and moves
    the phase by exactly the increment, modulo 2π. *)
Theorem next_advances_phase (fuel : nat) (o : Oscillator) :
  _muted o = false ->
  0 <= _phase o < TWOPI -> 0 <= _phaseIncrement o <= PI ->
  exists v o',
    next (S fuel) o = Some (v, o')
    /\ _phase o'
       = if Rlt_dec (_phase o + _phaseIncrement o) TWOPI
         then _phase o + _phaseIncrement o
         else _phase o + _phaseIncrement o - TWOPI.
Proof.
  intros Hm Hp Hi.
  assert (Hinc : forall value o1,
            _phase o1 = _phase o -> _phaseIncrement o1 = _phaseIncrement o ->
            exists v o', increment (S fuel) value o1 = Some (v, o')
              /\ _phase o'
                 = if Rlt_dec (_phase o + _phaseIncrement o) TWOPI
                   then _phase o + _phaseIncrement o
                   else _phase o + _phaseIncrement o - TWOPI).
  { intros value o1 E1 E2. unfold increment. rewrite E1, E2.
    cbn [wrap_phase].
    set (q := _phase o + _phaseIncrement o).
    destruct (Rge_dec q TWOPI) as [Hge | Hlt];
      destruct (Rlt_dec q TWOPI) as [Hlt' | Hge']; try lra.
    - rewrite wrap_phase_below by (unfold q, TWOPI in *; lra).
      eexists _, _. split; reflexivity.
    - eexists _, _. split; reflexivity. }
  unfold next. rewrite Hm.
  destruct (_useNaive o); [now apply Hinc |].
  destruct (_mode o); now apply Hinc.
Qed.

Lemma next_advances_phase_witness :
  let o := new_Oscillator default_rate in
  exists v o',
    next 1 o = Some (v, o')
    /\ _phase o'
       = if Rlt_dec (_phase o + _phaseIncrement o) TWOPI
         then _phase o + _phaseIncrement o
         else _phase o + _phaseIncrement o - TWOPI.
Proof.
  intros o. apply (next_advances_phase 0 o).
  - reflexivity.
  - cbn. pose proof TWOPI_pos. lra.
  - apply phaseIncrement_bounds. reflexivity.
Defined.

(** *** Bounds on the samples *)

Lemma quotient_unit (t d : R) : 0 < d -> 0 <= t < d -> 0 <= t / d < 1.
Proof.
  intros Hd Ht. pose proof (Rinv_0_lt_compat d Hd) as Hi.
  assert (Hm : t / d * d = t) by (field; lra).
  split; nra.
Qed.

Lemma t_bounds (o : Oscillator) :
  0 <= _phase o < TWOPI -> 0 <= _phase o / TWOPI < 1.
Proof. intros Hp. apply quotient_unit; [apply TWOPI_pos | exact Hp]. Qed.

Lemma naiveWave_bounded (o : Oscillator) :
  0 <= _phase o < TWOPI -> -1 <= naiveWave o <= 1.
Proof.
  intros Hp. pose proof (t_bounds o Hp) as Ht. unfold naiveWave.
  destruct (_mode o).
  - pose proof (SIN_bound (_phase o)). lra.
  - replace (2 * _phase o / TWOPI) with (2 * (_phase o / TWOPI))
      by (unfold Rdiv; ring). lra.
  - destruct (Rlt_dec (_phase o) PI); lra.
  - replace (2 * _phase o / TWOPI) with (2 * (_phase o / TWOPI))
      by (unfold Rdiv; ring).
    set (t := _phase o / TWOPI) in *.
    unfold Rabs. destruct (Rcase_abs (-1 + 2 * t)); lra.
Qed.

(** X4. With a wrapped phase and an increment of at most half a turn, [next]
    returns, and whenever the naive wave forms are selected or the mode is
    SINE the sample it returns lies in [−1, 1]: it is 0 for a muted
    oscillator and the value of [naiveWave] otherwise. *)
Theorem next_sample_bounded (fuel : nat) (o : Oscillator) :
  0 <= _phase o < TWOPI -> 0 <= _phaseIncrement o <= PI ->
  _useNaive o = true \/ _mode o = OSCILLATOR_WAVE_SINE ->
  exists v o',
    next (S fuel) o = Some (v, o')
    /\ v = (if _muted o then 0 else naiveWave o)
    /\ -1 <= v <= 1.
Proof.
  intros Hp Hi Hmode.
  destruct (next_inv o Hp Hi) as [Hex _].
  destruct (Hex fuel) as (v & o' & Hn).
  exists v, o'. split; [exact Hn |].
  pose proof (naiveWave_bounded o Hp) as Hb.
  revert Hn. unfold next.
  destruct (_muted o); [intros [= <- _]; split; [reflexivity | lra] |].
  destruct (_useNaive o) eqn:Hnaive.
  { intros H. apply increment_frame in H as [-> _]. now split. }
  destruct Hmode as [Hc | Hsine]; [discriminate |].
  rewrite Hsine. intros H. apply increment_frame in H as [-> _]. now split.
Qed.

Lemma next_sample_bounded_witness :
  let o := useNaive true
             (setMode OSCILLATOR_WAVE_SAW (new_Oscillator default_rate)) in
  exists v o',
    next 1 o = Some (v, o')
    /\ v = (if _muted o then 0 else naiveWave o)
    /\ -1 <= v <= 1.
Proof.
  intros o. apply (next_sample_bounded 0 o).
  - cbn. pose proof TWOPI_pos. lra.
  - apply (phaseIncrement_bounds default_rate). reflexivity.
  - left. reflexivity.
Defined.

(** *** How the setters compose *)

(** X5. [setFreq] and [setPitch] commute, and of two calls of the same
    setter the later one wins: the oscillator, increment included, is the one
    the last frequency and the last pitch determine. *)
Theorem setFreq_setPitch_compose
    (rate : N) (f f' p p' : R) (o : Oscillator) :
  setFreq rate f (setPitch rate p o) = setPitch rate p (setFreq rate f o)
  /\ setFreq rate f (setFreq rate f' o) = setFreq rate f o
  /\ setPitch rate p (setPitch rate p' o) = setPitch rate p o.
Proof. destruct o. repeat split; reflexivity. Qed.

(** X6. Pitch-bend round trip: on an oscillator without bend, any bend
    followed by [setPitch(0)] gives back the oscillator that [setFreq] alone
    had made, with the same increment. *)
Theorem setPitch_zero_restores
    (rate : N) (f p : R) (o : Oscillator) :
  _pitch o = 0 ->
  setPitch rate 0 (setPitch rate p (setFreq rate f o)) = setFreq rate f o.
Proof. destruct o. cbn. intros ->. reflexivity. Qed.

Lemma setPitch_zero_restores_witness :
  setPitch default_rate 0
    (setPitch default_rate (1 / 2)
       (setFreq default_rate 880 (new_Oscillator default_rate)))
  = setFreq default_rate 880 (new_Oscillator default_rate).
Proof. apply setPitch_zero_restores. reflexivity. Defined.

(** *** The ends of the clamp *)

Lemma spec_pitchOffset_zero : spec_pitchOffset 0 = 0.
Proof.
  unfold spec_pitchOffset, sign.
  destruct (Rlt_dec 0 0); [lra |]. destruct (Rgt_dec 0 0); [lra |]. ring.
Qed.

Lemma Rinv_nonneg (x : R) : 0 <= x -> 0 <= / x.
Proof.
  intros [Hx | <-]; [left; now apply Rinv_0_lt_compat |].
  rewrite Rinv_0. lra.
Qed.

(** X7. Under a positive sample rate, a frequency that is not positive,
    such as the silence value −1 of the MIDI controller, gives an increment
    of 0 on an oscillator without bend, and an unmuted [next] then leaves the
    phase where it is. *)
Theorem setFreq_nonpositive_freezes
    (rate : N) (f : R) (o : Oscillator) (fuel : nat) :
  (0 < rate)%N ->
  _pitch o = 0 -> f <= 0 -> _muted o = false -> _phase o < TWOPI ->
  _phaseIncrement (setFreq rate f o) = 0
  /\ exists v o', next fuel (setFreq rate f o) = Some (v, o')
                  /\ _phase o' = _phase o.
Proof.
  intros _ Hp Hf Hm Hph.
  assert (Hinc : _phaseIncrement (setFreq rate f o) = 0).
  { unfold setFreq. rewrite phaseIncrement_setIncrement.
    cbn [_freq _pitch with_freq]. rewrite Hp.
    unfold spec_phaseIncrement, spec_effectiveFreq, clamp.
    rewrite spec_pitchOffset_zero, Rplus_0_r.
    pose proof (double_of_ulong_nonneg rate).
    rewrite Rmax_right by lra. rewrite Rmin_left by lra.
    unfold Rdiv. ring. }
  split; [exact Hinc |].
  destruct (next_unmuted_phase fuel (setFreq rate f o)) as (v & o' & Hn & Hq).
  - exact Hm.
  - rewrite Hinc. cbn. lra.
  - exists v, o'. split; [exact Hn |]. rewrite Hq, Hinc. cbn. lra.
Qed.

Lemma setFreq_nonpositive_freezes_witness :
  let o := new_Oscillator default_rate in
  _phaseIncrement (setFreq default_rate (-1) o) = 0
  /\ exists v o', next 0 (setFreq default_rate (-1) o) = Some (v, o')
                  /\ _phase o' = _phase o.
Proof.
  intros o. apply setFreq_nonpositive_freezes.
  - reflexivity.
  - reflexivity.
  - lra.
  - reflexivity.
  - cbn. pose proof TWOPI_pos. lra.
Defined.

(** X9. The increment never decreases when the frequency grows: for the
    same pitch and the same positive rate, [f1 <= f2] gives increments in
    the same order. *)
Theorem setFreq_monotone (rate : N) (f1 f2 : R) (o : Oscillator) :
  (0 < rate)%N -> f1 <= f2 ->
  _phaseIncrement (setFreq rate f1 o) <= _phaseIncrement (setFreq rate f2 o).
Proof.
  intros _ Hf. unfold setFreq. rewrite !phaseIncrement_setIncrement.
  cbn [_freq _pitch with_freq].
  unfold spec_phaseIncrement, spec_effectiveFreq, clamp.
  pose proof PI_RGT_0 as Hpi.
  pose proof (Rinv_nonneg _ (double_of_ulong_nonneg rate)) as Hinv.
  set (x := spec_pitchOffset (_pitch o)).
  assert (Hc : Rmin (Rmax (f1 + x) 0) (double_of_ulong rate / 2)
               <= Rmin (Rmax (f2 + x) 0) (double_of_ulong rate / 2)).
  { apply Rle_min_compat_r. apply Rle_max_compat_r. lra. }
  unfold Rdiv. apply Rmult_le_compat_r; [exact Hinv |].
  apply Rmult_le_compat_l; [lra | exact Hc].
Qed.

Lemma setFreq_monotone_witness :
  _phaseIncrement (setFreq default_rate 220 (new_Oscillator default_rate))
  <= _phaseIncrement (setFreq default_rate 880 (new_Oscillator default_rate)).
Proof. apply setFreq_monotone; [reflexivity | lra]. Defined.

End OscProps.

(** ** More about the MIDI controller *)

Module MidiProps.
Import Midi MidiMore.

Local Open Scope Z_scope.

Lemma with_queue_nil (c : MidiController) :
  _queue c = [] -> with_queue [] c = c.
Proof. destruct c. cbn. now intros ->. Qed.

(** [process] removes the front of the queue and nothing else of it. *)
Lemma process_queue (c : MidiController) :
  _queue (process c) = tail (_queue c).
Proof.
  unfold process, nextEvent. destruct c as [f v p n ns q]. cbn [_queue].
  destruct q as [| e q]; cbn; [reflexivity |].
  destruct (type e); cbn; try reflexivity.
  now destruct (truthy (velocity e)).
Qed.

(** *** Normalisation *)

(** X10. For the data a MIDI device sends, the normalised values are in
    range: a note-on with velocity 1..127 becomes a NOTE_ON of the same note
    with a velocity in (0, 1]; a controller value 0..127 of a controller
    number below 2^31 a CONTROL of that number with a value in [0, 1]; a
    pitch bend −8192..8191 a PITCHBEND with a pitch in [−1, 1). *)
Theorem normalised_ranges (ev : snd_seq_event_t) :
  let e := _midi_event_process ev in
  (ev_type ev = SND_SEQ_EVENT_NOTEON -> 1 <= data_note_velocity ev <= 127 ->
   type e = MIDI_NOTEON /\ note e = data_note_note ev
   /\ (0 < velocity e <= 1)%R)
  /\ (ev_type ev = SND_SEQ_EVENT_CONTROLLER ->
      0 <= data_control_value ev <= 127 ->
      0 <= data_control_param ev < 2 ^ 31 ->
      type e = MIDI_CONTROL /\ note e = data_control_param ev
      /\ (0 <= control e <= 1)%R)
  /\ (ev_type ev = SND_SEQ_EVENT_PITCHBEND ->
      -8192 <= data_control_value ev <= 8191 ->
      type e = MIDI_PITCHBEND /\ (-1 <= pitch e < 1)%R).
Proof.
  intros e. subst e. unfold _midi_event_process.
  split; [| split]; intros Ht [Hlo Hhi]; rewrite Ht; cbn.
  - destruct (Z.gtb_spec (data_note_velocity ev) 0) as [Hpos | Hle]; [| lia].
    cbn. apply IZR_lt in Hpos. apply IZR_le in Hhi.
    repeat split; try reflexivity; lra.
  - intros Hparam. apply IZR_le in Hlo, Hhi.
    repeat split; try reflexivity; try lra.
    unfold to_int. rewrite Z.mod_small; lia.
  - assert (Hlt : data_control_value ev < 8192) by lia.
    apply IZR_le in Hlo. apply IZR_lt in Hlt.
    repeat split; try reflexivity; lra.
Qed.

Lemma normalised_ranges_witness :
  let e := _midi_event_process
             (mk_snd_seq_event SND_SEQ_EVENT_NOTEON 60 100 0 0) in
  type e = MIDI_NOTEON /\ note e = 60 /\ (0 < velocity e <= 1)%R.
Proof.
  intros e.
  destruct (normalised_ranges
              (mk_snd_seq_event SND_SEQ_EVENT_NOTEON 60 100 0 0))
    as [Hon _].
  apply Hon; [reflexivity | cbn; lia].
Defined.

(** *** The capture thread *)

Lemma process_event_from_hardware (ev : snd_seq_event_t) :
  from_hardware (_midi_event_process ev).
Proof.
  unfold from_hardware, _midi_event_process.
  destruct (ev_type ev =? SND_SEQ_EVENT_PITCHBEND);
    [cbn; split; [discriminate | discriminate] |].
  destruct (ev_type ev =? SND_SEQ_EVENT_CONTROLLER);
    [cbn; split; [discriminate | discriminate] |].
  destruct (ev_type ev =? SND_SEQ_EVENT_NOTEON).
  - destruct (Z.gtb_spec (data_note_velocity ev) 0) as [Hpos | _]; cbn;
      (split; [discriminate |]); [| discriminate].
    intros _. apply IZR_lt in Hpos. lra.
  - destruct (ev_type ev =? SND_SEQ_EVENT_NOTEOFF); cbn;
      split; discriminate.
Qed.

(** X11. The capture thread keeps the queue free of EMPTY events and of
    NOTE_ON events without a positive velocity: if the queue holds only
    events of that kind before the thread runs, it does so after any reads. *)
Theorem thread_keeps_queue_from_hardware (script : list seq_read) :
  forall (set_pending : bool) (events_pending : Z) (c c' : MidiController),
  Forall from_hardware (_queue c) ->
  _midi_event_thread set_pending events_pending script c = Running c' ->
  Forall from_hardware (_queue c').
Proof.
  induction script as [| rd script IH]; intros sp ep c c' Hq Hrun;
    cbn [_midi_event_thread] in Hrun.
  - now injection Hrun as <-.
  - destruct (r rd =? - EAGAIN); [now apply (IH _ _ _ _ Hq Hrun) |].
    destruct (r rd <? 0); [discriminate |].
    assert (Hq' : Forall from_hardware
                    (_queue (input (_midi_event_process (seq_event rd)) c))).
    { cbn. apply Forall_app. split; [exact Hq |].
      constructor; [apply process_event_from_hardware | constructor]. }
    destruct (_ >? 0); now apply (IH _ _ _ _ Hq' Hrun).
Qed.

Lemma thread_keeps_queue_from_hardware_witness :
  Forall from_hardware
    (_queue (input (_midi_event_process
                      (mk_snd_seq_event SND_SEQ_EVENT_NOTEON 60 100 0 0))
                   (new_MidiController 0))).
Proof.
  apply (thread_keeps_queue_from_hardware
           [mk_seq_read 0 (mk_snd_seq_event SND_SEQ_EVENT_NOTEON 60 100 0 0) 1]
           false 0 (new_MidiController 0)).
  - constructor.
  - reflexivity.
Defined.

(** X12. The capture thread ends the process exactly when one of the reads
    is fatal, whatever the other reads and the pending counts are. *)
Theorem thread_exits_iff_fatal (script : list seq_read) :
  forall (set_pending : bool) (events_pending : Z) (c : MidiController),
  _midi_event_thread set_pending events_pending script c = Exited
  <-> Exists fatal script.
Proof.
  induction script as [| rd script IH]; intros sp ep c;
    cbn [_midi_event_thread].
  - split; [discriminate | intros H; inversion H].
  - rewrite Exists_cons. unfold fatal at 1.
    destruct (Z.eqb_spec (r rd) (- EAGAIN)) as [He | Hne].
    { rewrite IH. split; [auto | intros [[_ H] | H]; [contradiction | exact H]]. }
    destruct (Z.ltb_spec (r rd) 0) as [Hlt | Hge].
    { split; auto. }
    destruct (_ >? 0); rewrite IH;
      (split; [auto | intros [[H _] | H]; [lia | exact H]]).
Qed.

(** *** The queue *)

Lemma drain_queue (q : list MidiEvent) : forall c,
  _queue c = q ->
  drain (length q) c = (q, with_queue [] c).
Proof.
  induction q as [| e q IH]; intros c Hq; cbn [length drain].
  - now rewrite with_queue_nil.
  - unfold nextEvent. rewrite Hq.
    rewrite (IH (mkMidiController (_frequency c) (_velocity c) (_pitch c)
                                  (_note c) (_notes c) q) eq_refl).
    reflexivity.
Qed.

Lemma input_all_queue (es : list MidiEvent) : forall c,
  input_all es c = with_queue (_queue c ++ es) c.
Proof.
  induction es as [| e es IH]; intros c; cbn.
  - rewrite app_nil_r. now destruct c.
  - unfold input_all in IH. rewrite IH. unfold with_queue. cbn.
    now rewrite <- app_assoc.
Qed.

(** X13. The queue is first in, first out: after [input] of a list of
    events, as many calls of [nextEvent] as there are events in the queue
    hand out the events that were waiting and then the new ones, in order,
    and leave a queue from which [nextEvent] hands out EMPTY without changing
    the controller. *)
Theorem queue_is_fifo (es : list MidiEvent) (c : MidiController) :
  let c1 := input_all es c in
  let (out, c2) := drain (length (_queue c) + length es) c1 in
  out = _queue c ++ es
  /\ _queue c2 = []
  /\ nextEvent c2 = (empty_event, c2).
Proof.
  cbn zeta. rewrite input_all_queue, <- length_app.
  rewrite (drain_queue (_queue c ++ es)) by reflexivity.
  repeat split; reflexivity.
Qed.

(** X14. [process] takes one event per call: after [n] calls the queue is
    the old one without its first [n] events, so a backlog of [k] events
    needs [k] calls to clear. *)
Theorem process_n_drops_n (n : nat) : forall c : MidiController,
  _queue (process_n n c) = drop n (_queue c).
Proof.
  induction n as [| n IH]; intros c; cbn [process_n].
  - now rewrite drop_0.
  - rewrite IH, process_queue.
    destruct (_queue c); cbn; [apply drop_nil | reflexivity].
Qed.

(** *** The note flags *)

(** X15. [noteOn(m)] answers the flag stored for [m] and false when none is
    stored, as on a new controller; after [process] it differs from before
    only for the note of the event that was at the front of the queue: a
    NOTE_ON with a velocity that is not zero makes it true, a NOTE_OFF
    false; every other note, every note under any other event and every note
    on an empty queue answers as before. *)
Theorem noteOn_after_process (m : Z) (c : MidiController) :
  noteOn m c = default false (_notes c !! m)
  /\ (forall note0, noteOn m (new_MidiController note0) = false)
  /\ noteOn m (process c)
     = match _queue c with
       | [] => noteOn m c
       | e :: _ =>
           match type e with
           | MIDI_NOTEON =>
               if Req_dec_T (velocity e) 0 then noteOn m c
               else if bool_decide (note e = m) then true else noteOn m c
           | MIDI_NOTEOFF =>
               if bool_decide (note e = m) then false else noteOn m c
           | _ => noteOn m c
           end
       end.
Proof.
  split; [unfold noteOn; now destruct (_notes c !! m) |].
  split; [reflexivity |].
  unfold process, nextEvent, noteOn.
  destruct c as [f v p n ns q]. cbn [_queue].
  destruct q as [| e q]; cbn; [reflexivity |].
  destruct (type e); cbn; try reflexivity.
  - unfold truthy. destruct (Req_dec_T (velocity e) 0); cbn; [reflexivity |].
    case_bool_decide as Hm.
    + subst m. now rewrite lookup_insert_eq.
    + now rewrite lookup_insert_ne.
  - case_bool_decide as Hm.
    + subst m. now rewrite lookup_insert_eq.
    + now rewrite lookup_insert_ne.
Qed.

(** X16. Monophonic policy: when two notes are pressed and the first one is
    released, the controller falls silent although the second note is still
    flagged as held. *)
Theorem first_release_silences (a b : Z) (va vb : R) (c : MidiController) :
  a <> b -> va <> 0%R -> vb <> 0%R -> _queue c = [] ->
  let c3 := process_n 3
              (input_all [mkMidiEvent MIDI_NOTEON a 0 va 0;
                          mkMidiEvent MIDI_NOTEON b 0 vb 0;
                          mkMidiEvent MIDI_NOTEOFF a 0 0 0] c) in
  frequency c3 = (-1)%R /\ velocity_of c3 = 0%R
  /\ noteOn b c3 = true /\ noteOn a c3 = false /\ _queue c3 = [].
Proof.
  intros Hab Ha Hb Hq. destruct c as [f v p n ns q]. cbn in Hq. subst q.
  assert (Hta : truthy va = true)
    by (unfold truthy; now destruct (Req_dec_T va 0)).
  assert (Htb : truthy vb = true)
    by (unfold truthy; now destruct (Req_dec_T vb 0)).
  cbn. rewrite Hta. cbn. rewrite Htb. cbn. unfold noteOn. cbn.
  rewrite lookup_insert_ne by congruence. rewrite !lookup_insert_eq.
  repeat split; reflexivity.
Qed.

Lemma first_release_silences_witness :
  let c3 := process_n 3
              (input_all [mkMidiEvent MIDI_NOTEON 60 0 1 0;
                          mkMidiEvent MIDI_NOTEON 64 0 1 0;
                          mkMidiEvent MIDI_NOTEOFF 60 0 0 0]
                         (new_MidiController 0)) in
  frequency c3 = (-1)%R /\ velocity_of c3 = 0%R
  /\ noteOn 64 c3 = true /\ noteOn 60 c3 = false /\ _queue c3 = [].
Proof.
  apply (first_release_silences 60 64 1 1 (new_MidiController 0));
    [lia | lra | lra | reflexivity].
Defined.

(** *** Note numbers and frequencies *)

(** X18. [noteToFrequency] maps note 69 to 440 Hz, and over the MIDI notes
    0 to 127 it is positive and strictly increasing in the note number. *)
Theorem noteToFrequency_increasing (n m : Z) :
  0 <= n -> n < m -> m <= 127 ->
  noteToFrequency 69 = 440%R
  /\ (0 < noteToFrequency n < noteToFrequency m)%R.
Proof.
  intros _ Hnm _. unfold noteToFrequency. split.
  { replace ((69 - 69) / 12)%R with 0%R by field.
    rewrite Rpower_O by lra. ring. }
  assert (Hpos : forall x, (0 < Rpower 2 x)%R) by (intros; apply exp_pos).
  split; [specialize (Hpos ((IZR n - 69) / 12)%R); lra |].
  apply Rmult_lt_compat_l; [lra |].
  apply Rpower_lt; [lra |]. apply IZR_lt in Hnm. lra.
Qed.

Lemma noteToFrequency_increasing_witness :
  noteToFrequency 69 = 440%R
  /\ (0 < noteToFrequency 60 < noteToFrequency 61)%R.
Proof. apply noteToFrequency_increasing; lia. Defined.

(** *** The device lookup of the constructor *)

Lemma find_client_no_match (dev : String.string)
    (clients : list (String.string * Z)) : forall client,
  Forall (fun nc => fst nc <> dev) clients ->
  find_client dev clients client = client.
Proof.
  induction clients as [| [name number] clients IH]; intros client Hall;
    [reflexivity |].
  apply Forall_cons in Hall as [Hne Hall]. cbn in *.
  destruct (String.eqb_spec name dev) as [E | _]; [contradiction |].
  now apply IH.
Qed.

(** X19. The device lookup needs an exact match of the name: without one
    the constructor exits; with several the last client of that name is the
    one connected (the loop does not stop at the first), and a negative
    client number exits as well. *)
Theorem lookup_device_last_match (dev : String.string)
    (before after : list (String.string * Z)) (number : Z) :
  Forall (fun nc => fst nc <> dev) after ->
  lookup_device dev after = LookupExit
  /\ lookup_device dev (before ++ (dev, number) :: after)
     = if number <? 0 then LookupExit else ConnectFrom number.
Proof.
  intros Hafter. unfold lookup_device. split.
  - now rewrite find_client_no_match.
  - assert (H : forall l client,
              find_client dev (l ++ (dev, number) :: after) client = number).
    { induction l as [| [name k] l IH]; intros client; cbn.
      - rewrite String.eqb_refl. now apply find_client_no_match.
      - destruct (String.eqb name dev); apply IH. }
    now rewrite H.
Qed.

Lemma lookup_device_last_match_witness :
  lookup_device DeviceNames.synth [(DeviceNames.other, 20)] = LookupExit
  /\ lookup_device DeviceNames.synth ([(DeviceNames.synth, 24); (DeviceNames.kbd, 28)]
                            ++ (DeviceNames.synth, 32) :: [(DeviceNames.other, 20)])
     = if 32 <? 0 then LookupExit else ConnectFrom 32.
Proof.
  apply (lookup_device_last_match DeviceNames.synth).
  repeat constructor. cbn. discriminate.
Defined.

End MidiProps.

(** ** More about the audio device *)

Module AudioSetupProps.
Import Audio AudioSetup.

(** X20. The start threshold is the largest whole multiple of the period
    size that does not exceed the buffer size. *)
Theorem start_threshold_largest_multiple (buffer_size period_size : N) :
  (0 < period_size)%N ->
  let t := start_threshold buffer_size period_size in
  (t mod period_size = 0 /\ t <= buffer_size < t + period_size)%N.
Proof.
  intros Hp. unfold start_threshold. cbn zeta.
  pose proof (N.div_mod buffer_size period_size ltac:(lia)) as Hd.
  pose proof (N.mod_upper_bound buffer_size period_size ltac:(lia)) as Hm.
  split; [apply N.Div0.mod_mul |].
  generalize dependent (buffer_size / period_size)%N.
  generalize dependent (buffer_size mod period_size)%N.
  intros r Hr q Hq. nia.
Qed.

Lemma start_threshold_largest_multiple_witness :
  let t := start_threshold 1000 64 in
  (t mod 64 = 0 /\ t <= 1000 < t + 64)%N.
Proof. apply start_threshold_largest_multiple. lia. Defined.

(** Case analysis on the answers a negotiation has consumed. *)
Ltac answer_cases H :=
  repeat (cbn -[new_AudioDevice start_threshold N.div N.mul rate] in H;
          match type of H with
          | context [(?e <? 0)%Z] => destruct (Z.ltb_spec e 0)
          | context [decide ?P] => destruct (decide P)
          | context [match ?l with [] => _ | _ :: _ => _ end] =>
              is_var l; destruct l as [| [? ?] ?]
          end);
  cbn -[new_AudioDevice start_threshold N.div N.mul rate] in H.

(** X21. What a constructor that returns has done: it consumed sixteen
    answers, none of them negative; the handle opened is not null, the rate
    granted is 44100 and the period size granted is not 0; the sixteen calls
    were made in the order of [negotiation], asking for a buffer of 1024
    frames and a period of 64, with the start threshold and [avail_min]
    computed from the sizes read back; the device holds those sizes and a
    sample buffer of [num_samples] samples; and [num_samples] is
    [period_size × channels] when the size of a period in bits,
    [period_size × channels × format_width], fits in the 64 bits of a
    [size_t]. *)
Theorem AudioDevice_new_returns
    (h : snd_pcm_t) (content : nat -> Z) (s s' : alsa) (d : AudioDevice) :
  AudioDevice_new h content s = Ok d s' ->
  exists (used rest : list (Z * N)) (handle b p : N),
    answers s = used ++ rest /\ answers s' = rest
    /\ length used = 16
    /\ Forall (fun a => (0 <= fst a)%Z) used
    /\ (snd <$> used) !! 0 = Some handle /\ handle <> 0%N
    /\ (snd <$> used) !! 6 = Some rate
    /\ (snd <$> used) !! 8 = Some b
    /\ (snd <$> used) !! 10 = Some p /\ p <> 0%N
    /\ made s' = made s ++ negotiation b p
    /\ d = new_AudioDevice (N.to_nat b) (N.to_nat p) h content
    /\ period_size d = N.to_nat p /\ buffer_size d = N.to_nat b
    /\ length (samples d) = num_samples d
    /\ ((p * 32 < 2 ^ 64)%N -> num_samples d = N.to_nat p * channels).
Proof.
  intros H. destruct s as [ans log].
  unfold AudioDevice_new, initDevice, setupHardware, setupSoftware, mbind,
    call, chk_err, assert_handle, exit, ret in H.
  answer_cases H; try discriminate.
  injection H as <- <-.
  match goal with
  | |- context [new_AudioDevice (N.to_nat ?b) (N.to_nat ?p) h content] =>
      destruct (AudioFacts.new_AudioDevice_length
                  (N.to_nat b) (N.to_nat p) h content) as (Hp & Hb & Hl);
      pose proof (AudioFacts.new_AudioDevice_sizes
                    (N.to_nat b) (N.to_nat p) h content) as Hn
  end.
  eexists [_; _; _; _; _; _; _; _; _; _; _; _; _; _; _; _], _, _, _, _.
  cbn [answers made fmap list_fmap lookup list_lookup snd list_lookup].
  repeat match goal with |- _ /\ _ => split end;
    try reflexivity; try eassumption; try congruence.
  all: try (intros Hfit; destruct Hn as (Hp' & Hn & _);
            [rewrite N2Nat.id; change (N.of_nat (channels * format_width))
               with 32%N; exact Hfit
            | rewrite Hn, Hp'; reflexivity]).
  - repeat constructor; cbn; lia.
  - cbn. f_equal.
    match goal with
    | Hr : ~ ?x <> rate |- ?x = rate =>
        destruct (decide (x = rate)); [assumption | contradiction]
    end.
  - unfold negotiation. cbn. rewrite <- !app_assoc. reflexivity.
Qed.

Lemma AudioDevice_new_returns_witness :
  let h := demo_handle [] [] in
  let content := fun _ : nat => 0%Z in
  let s := mk_alsa (granting 7 44100 1024 64) [] in
  let s' := mk_alsa [] (negotiation 1024 64) in
  let d := new_AudioDevice 1024 64 h content in
  exists (used rest : list (Z * N)) (handle b p : N),
    answers s = used ++ rest /\ answers s' = rest
    /\ length used = 16
    /\ Forall (fun a => (0 <= fst a)%Z) used
    /\ (snd <$> used) !! 0 = Some handle /\ handle <> 0%N
    /\ (snd <$> used) !! 6 = Some rate
    /\ (snd <$> used) !! 8 = Some b
    /\ (snd <$> used) !! 10 = Some p /\ p <> 0%N
    /\ made s' = made s ++ negotiation b p
    /\ d = new_AudioDevice (N.to_nat b) (N.to_nat p) h content
    /\ period_size d = N.to_nat p /\ buffer_size d = N.to_nat b
    /\ length (samples d) = num_samples d
    /\ ((p * 32 < 2 ^ 64)%N -> num_samples d = N.to_nat p * channels).
Proof.
  intros h content s s' d.
  apply (AudioDevice_new_returns h content s s' d). reflexivity.
Defined.

Ltac exit_at k :=
  exists k; eexists; cbn;
  split; [reflexivity |];
  split; [lia |];
  split; [repeat constructor; cbn; lia |];
  split; [first [left; cbn; lia
               | right; split; [reflexivity | cbn; assumption]] |];
  split; [reflexivity | rewrite ?length_app; cbn; lia].

(** X22. The constructor fails fast: when it exits, it does so right after
    the first call that ALSA answered with a negative value, or right after
    the rate call when the rate granted is not 44100; every earlier answer
    was accepted and no call is made after the failing one. *)
Theorem AudioDevice_new_exits
    (h : snd_pcm_t) (content : nat -> Z) (s s' : alsa) :
  AudioDevice_new h content s = Exit s' ->
  exists (k : nat) (a : Z * N),
    answers s !! k = Some a
    /\ k < 16
    /\ Forall (fun a => (0 <= fst a)%Z) (take k (answers s))
    /\ ((fst a < 0)%Z \/ (k = 6 /\ snd a <> rate))
    /\ answers s' = drop (S k) (answers s)
    /\ length (made s') = length (made s) + S k.
Proof.
  intros H. destruct s as [ans log].
  unfold AudioDevice_new, initDevice, setupHardware, setupSoftware, mbind,
    call, chk_err, assert_handle, exit, ret in H.
  answer_cases H; try discriminate; injection H as <-;
    first [ exit_at 0 | exit_at 1 | exit_at 2 | exit_at 3 | exit_at 4
          | exit_at 5 | exit_at 6 | exit_at 7 | exit_at 8 | exit_at 9
          | exit_at 10 | exit_at 11 | exit_at 12 | exit_at 13 | exit_at 14
          | exit_at 15 ].
Qed.

Lemma AudioDevice_new_exits_witness :
  let s := mk_alsa [(0%Z, 7%N); (0%Z, 0%N); (-22, 0%N)%Z; (0%Z, 0%N)] [] in
  let s' := mk_alsa [(0%Z, 0%N)]
                    [snd_pcm_open; snd_pcm_hw_params_any;
                     snd_pcm_hw_params_set_rate_resample 1] in
  exists (k : nat) (a : Z * N),
    answers s !! k = Some a
    /\ k < 16
    /\ Forall (fun a => (0 <= fst a)%Z) (take k (answers s))
    /\ ((fst a < 0)%Z \/ (k = 6 /\ snd a <> rate))
    /\ answers s' = drop (S k) (answers s)
    /\ length (made s') = length (made s) + S k.
Proof.
  intros s s'.
  apply (AudioDevice_new_exits (demo_handle [] []) (fun _ => 0%Z) s s').
  reflexivity.
Defined.

End AudioSetupProps.

(** ** More about [playSamples], [xrun_recovery] and [play] *)

Module AudioProps.
Import Audio AudioMore AudioFacts.

Local Open Scope Z_scope.

(** *** Every write stays inside the sample buffer *)

Lemma resume_loop_calls (fuel : nat) : forall h err h',
  resume_loop fuel h = Some (err, h') ->
  exists new, calls h' = calls h ++ new
              /\ Forall (fun c => forall p, in_window p c) new.
Proof.
  induction fuel as [| fuel IH]; intros h err h' H; cbn [resume_loop] in H;
    unfold snd_pcm_resume in H;
    destruct (resume_answers h) as [| a rest]; try discriminate;
    destruct (a =? - EAGAIN); try discriminate.
  - injection H as _ <-. exists [Resume]. split; [reflexivity |].
    repeat constructor.
  - apply IH in H as (new & -> & Hnew). cbn.
    exists (Resume :: Sleep :: new). split.
    + now rewrite <- !app_assoc.
    + repeat constructor. exact Hnew.
  - injection H as _ <-. exists [Resume]. split; [reflexivity |].
    repeat constructor.
Qed.

Lemma xrun_recovery_calls (h h' : snd_pcm_t) (err rc : Z) :
  xrun_recovery h err = Some (rc, h') ->
  exists new, calls h' = calls h ++ new
              /\ Forall (fun c => forall p, in_window p c) new.
Proof.
  unfold xrun_recovery.
  destruct (err =? - EPIPE).
  { unfold snd_pcm_prepare. destruct (prepare_answers h); [discriminate |].
    intros [= _ <-]. exists [Prepare]. split; [reflexivity |].
    repeat constructor. }
  destruct (err =? - ESTRPIPE).
  { destruct (resume_loop _ h) as [[e1 h1] |] eqn:E; [| discriminate].
    apply resume_loop_calls in E as (new & Hc & Hnew).
    destruct (e1 <? 0).
    - unfold snd_pcm_prepare. destruct (prepare_answers h1); [discriminate |].
      intros [= _ <-]. cbn. rewrite Hc. exists (new ++ [Prepare]). split.
      + now rewrite <- app_assoc.
      + apply Forall_app. split; [exact Hnew | repeat constructor].
    - intros [= _ <-]. eauto. }
  intros [= _ <-]. exists []. split; [now rewrite app_nil_r | constructor].
Qed.

Lemma playSamples_loop_window (period : Z) (fuel : nat) :
  forall (ptr count : Z) (h : snd_pcm_t) (d : AudioDevice),
  count <= period -> ptr = (period - count) * Z.of_nat channels ->
  exists new,
    calls_at (playSamples_loop fuel ptr count h d) = Some (calls h ++ new)
    /\ Forall (in_window period) new.
Proof.
  induction fuel as [| fuel IH]; intros ptr count h d Hc Hp;
    cbn [playSamples_loop]; destruct (Z.gtb_spec count 0) as [Hpos | Hle];
    try (exists []; split; [cbn; now rewrite app_nil_r | constructor]).
  unfold snd_pcm_writei.
  destruct (writei_answers h) as [| ret rest];
    [exists []; split; [cbn; now rewrite app_nil_r | constructor] |].
  set (h1 := logged _ _).
  assert (Hw : in_window period (Writei ptr count (samples d)))
    by (cbn; split; [lia | exact Hp]).
  assert (Hh1 : calls h1 = calls h ++ [Writei ptr count (samples d)])
    by reflexivity.
  destruct (int_of ret =? - EAGAIN).
  { destruct (IH ptr count h1 d Hc Hp) as (new & -> & Hnew).
    exists (Writei ptr count (samples d) :: new). split.
    - rewrite Hh1. now rewrite <- app_assoc.
    - now constructor. }
  destruct (Z.ltb_spec (int_of ret) 0) as [Hneg | Hnn].
  { destruct (xrun_recovery h1 (int_of ret)) as [[rc h2] |] eqn:E.
    - apply xrun_recovery_calls in E as (new & Hc2 & Hnew).
      exists (Writei ptr count (samples d) :: new). split.
      + destruct (rc <? 0); cbn; rewrite Hc2, Hh1; now rewrite <- app_assoc.
      + constructor; [exact Hw |].
        eapply Forall_impl; [exact Hnew | auto].
    - exists [Writei ptr count (samples d)]. split; [reflexivity |].
      now repeat constructor. }
  destruct (IH (ptr + int_of ret * Z.of_nat channels) (count - int_of ret)
               h1 d) as (new & -> & Hnew);
    [lia | subst ptr; ring |].
  exists (Writei ptr count (samples d) :: new). split.
  - rewrite Hh1. now rewrite <- app_assoc.
  - now constructor.
Qed.

(** X23. Whatever ALSA answers, every [snd_pcm_writei] that [playSamples]
    makes offers exactly the frames of the period that are still to be
    written, from the sample that follows the frames written: the count is
    between 1 and the period size and the pointer is [channels × (period −
    count)] samples into the buffer, so no write reaches past the
    [period × channels] samples of the buffer. *)
Theorem playSamples_writes_in_window (d : AudioDevice) (h : snd_pcm_t) :
  device_handle d = Some h ->
  exists new,
    calls_at (playSamples d) = Some (calls h ++ new)
    /\ Forall (in_window (period_of d)) new.
Proof.
  intros Hh. unfold playSamples. rewrite Hh.
  apply playSamples_loop_window; unfold period_of; [reflexivity | ring].
Qed.

Lemma playSamples_writes_in_window_witness :
  let h := demo_handle [1; -11; 1] [] in
  let d := demo_device 2 h in
  exists new,
    calls_at (playSamples d) = Some (calls h ++ new)
    /\ Forall (in_window (period_of d)) new.
Proof.
  intros h d. apply (playSamples_writes_in_window d h). reflexivity.
Defined.

(** *** Retries and partial writes *)

Lemma playSamples_loop_done (fuel : nat) (ptr : Z) (h : snd_pcm_t)
    (d : AudioDevice) :
  playSamples_loop fuel ptr 0 h d = Returned (with_handle h d).
Proof. now destruct fuel. Qed.

(** A handle after [news] more calls, with [rest] as the answers left to
    [snd_pcm_writei]. *)
Lemma playSamples_loop_partial (d : AudioDevice) (period : Z) :
  forall (fs : list Z) (acc : Z) (fuel : nat) (h : snd_pcm_t) (rest : list Z),
  Forall (fun f => 0 < f) fs -> total fs = period - acc ->
  period < 2 ^ 31 -> 0 <= acc ->
  writei_answers h = fs ++ rest -> (length fs <= fuel)%nat ->
  playSamples_loop fuel (acc * Z.of_nat channels) (period - acc) h d
  = Returned
      (with_handle
         (mk_pcm rest (prepare_answers h) (resume_answers h)
                 (calls h
                  ++ map (fun a => Writei (a * Z.of_nat channels) (period - a)
                                          (samples d))
                         (starts acc fs)))
         d).
Proof.
  induction fs as [| f fs IH]; intros acc fuel h rest Hpos Hsum Hp Hacc Hw Hf.
  - cbn in Hsum. rewrite <- Hsum, playSamples_loop_done.
    cbn. rewrite app_nil_r. destruct h. cbn in *. now subst.
  - apply Forall_cons in Hpos as [Hfpos Hpos]. cbn [total fold_right] in Hsum.
    fold (total fs) in Hsum.
    assert (Htot : 0 <= total fs).
    { clear - Hpos. induction Hpos; cbn; [lia |]. fold (total l). lia. }
    destruct fuel as [| fuel]; [cbn in Hf; lia |]. cbn [playSamples_loop].
    destruct (Z.gtb_spec (period - acc) 0) as [_ | Hle]; [| lia].
    unfold snd_pcm_writei. rewrite Hw. cbn [app].
    set (h1 := logged _ _).
    rewrite int_of_small by lia.
    destruct (Z.eqb_spec f (- EAGAIN)) as [He | _];
      [unfold EAGAIN in He; lia |].
    destruct (Z.ltb_spec f 0) as [Hlt | _]; [lia |].
    replace (acc * Z.of_nat channels + f * Z.of_nat channels)
      with ((acc + f) * Z.of_nat channels) by ring.
    replace (period - acc - f) with (period - (acc + f)) by ring.
    rewrite (IH (acc + f) fuel h1 rest Hpos ltac:(lia) Hp ltac:(lia) eq_refl
               ltac:(cbn in Hf; lia)).
    cbn. now rewrite <- app_assoc.
Qed.

(** X24. Partial writes: when ALSA takes the period in pieces of
    [f1, ..., fk] frames (each positive, adding up to the period size),
    [playSamples] makes exactly [k] writes and returns; the write after
    [a] frames starts [a × channels] samples into the buffer and asks for
    the [period − a] frames left. *)
Theorem playSamples_partial_writes
    (d : AudioDevice) (h : snd_pcm_t) (fs rest : list Z) :
  device_handle d = Some h ->
  writei_answers h = fs ++ rest ->
  Forall (fun f => 0 < f) fs ->
  total fs = Z.of_nat (period_size d) ->
  Z.of_nat (period_size d) < 2 ^ 31 ->
  playSamples d
  = Returned
      (with_handle
         (mk_pcm rest (prepare_answers h) (resume_answers h)
                 (calls h
                  ++ map (fun a => Writei (a * Z.of_nat channels)
                                          (Z.of_nat (period_size d) - a)
                                          (samples d))
                         (starts 0 fs)))
         d).
Proof.
  intros Hh Hw Hpos Hsum Hp. unfold playSamples. rewrite Hh.
  rewrite int_of_small by lia.
  pose proof (playSamples_loop_partial d (Z.of_nat (period_size d)) fs 0
                (length (writei_answers h)) h rest Hpos) as H.
  rewrite Z.sub_0_r, Z.mul_0_l in H. apply H; try lia; try assumption.
  rewrite Hw, length_app. lia.
Qed.

Lemma playSamples_partial_writes_witness :
  let h := demo_handle [1; 2; 1; 4] [] in
  let d := demo_device 4 h in
  playSamples d
  = Returned
      (with_handle
         (mk_pcm [4] (prepare_answers h) (resume_answers h)
                 (calls h
                  ++ map (fun a => Writei (a * Z.of_nat channels)
                                          (Z.of_nat (period_size d) - a)
                                          (samples d))
                         (starts 0 [1; 2; 1])))
         d).
Proof.
  intros h d. apply (playSamples_partial_writes d h [1; 2; 1] [4]).
  - reflexivity.
  - reflexivity.
  - repeat constructor.
  - reflexivity.
  - cbn. lia.
Defined.

Lemma playSamples_loop_retry (d : AudioDevice) (ptr count : Z) :
  forall (k : nat) (fuel : nat) (h : snd_pcm_t) (rest : list Z),
  0 < count ->
  writei_answers h = replicate k (- EAGAIN) ++ rest -> (k <= fuel)%nat ->
  playSamples_loop fuel ptr count h d
  = playSamples_loop (fuel - k) ptr count
      (mk_pcm rest (prepare_answers h) (resume_answers h)
              (calls h ++ replicate k (Writei ptr count (samples d))))
      d.
Proof.
  induction k as [| k IH]; intros fuel h rest Hc Hw Hf.
  - cbn in *. rewrite Nat.sub_0_r, app_nil_r. destruct h. cbn in *. now subst.
  - destruct fuel as [| fuel]; [lia |]. cbn [playSamples_loop].
    destruct (Z.gtb_spec count 0) as [_ | Hle]; [| lia].
    unfold snd_pcm_writei. rewrite Hw. cbn [replicate app].
    set (h1 := logged _ _).
    change (int_of (- EAGAIN)) with (- EAGAIN). rewrite Z.eqb_refl.
    rewrite (IH fuel h1 rest Hc eq_refl ltac:(lia)).
    cbn. now rewrite <- app_assoc.
Qed.

(** X25. "Try again" is retried at once: after [k] answers [-EAGAIN] and
    one answer that takes the whole period, [playSamples] has made [k + 1]
    identical writes of the full period from the start of the buffer and
    returns; nothing is skipped and no recovery is called. *)
Theorem playSamples_retries_EAGAIN
    (d : AudioDevice) (h : snd_pcm_t) (k : nat) (rest : list Z) :
  device_handle d = Some h ->
  (0 < period_size d)%nat -> Z.of_nat (period_size d) < 2 ^ 31 ->
  writei_answers h
  = replicate k (- EAGAIN) ++ Z.of_nat (period_size d) :: rest ->
  playSamples d
  = Returned
      (with_handle
         (mk_pcm rest (prepare_answers h) (resume_answers h)
                 (calls h
                  ++ replicate (S k)
                       (Writei 0 (Z.of_nat (period_size d)) (samples d))))
         d).
Proof.
  intros Hh Hp0 Hp Hw. unfold playSamples. rewrite Hh.
  rewrite int_of_small by lia.
  set (P := Z.of_nat (period_size d)) in *.
  assert (Hlen : length (writei_answers h) = (k + S (length rest))%nat)
    by (rewrite Hw, length_app, length_replicate; reflexivity).
  rewrite (playSamples_loop_retry d 0 P k (length (writei_answers h)) h
             (P :: rest)) by (try assumption; lia).
  rewrite Hlen.
  replace (k + S (length rest) - k)%nat with (S (length rest)) by lia.
  pose proof (playSamples_loop_partial d P [P] 0 (S (length rest))) as H.
  rewrite Z.sub_0_r, Z.mul_0_l in H.
  rewrite (H _ rest); cbn; try lia; try reflexivity.
  - rewrite <- app_assoc, Z.sub_0_r, Z.mul_0_l.
    now rewrite <- (replicate_S_end k (Writei 0 P (samples d))).
  - repeat constructor. lia.
Qed.

Lemma playSamples_retries_EAGAIN_witness :
  let h := demo_handle [-11; -11; 2; 2] [] in
  let d := demo_device 2 h in
  playSamples d
  = Returned
      (with_handle
         (mk_pcm [2] (prepare_answers h) (resume_answers h)
                 (calls h
                  ++ replicate 3
                       (Writei 0 (Z.of_nat (period_size d)) (samples d))))
         d).
Proof.
  intros h d. apply (playSamples_retries_EAGAIN d h 2 [2]).
  - reflexivity.
  - cbn. lia.
  - cbn. lia.
  - reflexivity.
Defined.

(** *** Recovery from a suspend *)

Lemma resume_loop_retries (k : nat) :
  forall (fuel : nat) (h : snd_pcm_t) (a : Z) (rest : list Z),
  resume_answers h = replicate k (- EAGAIN) ++ a :: rest ->
  a <> - EAGAIN -> (k <= fuel)%nat ->
  resume_loop fuel h
  = Some (a, mk_pcm (writei_answers h) (prepare_answers h) rest
                    (calls h ++ concat (replicate k [Resume; Sleep])
                     ++ [Resume])).
Proof.
  induction k as [| k IH]; intros fuel h a rest Hr Ha Hf.
  - destruct fuel; cbn [resume_loop]; unfold snd_pcm_resume; rewrite Hr; cbn;
      destruct (Z.eqb_spec a (- EAGAIN)); try contradiction; reflexivity.
  - destruct fuel as [| fuel]; [lia |]. cbn [resume_loop].
    unfold snd_pcm_resume. rewrite Hr. cbn [replicate app].
    rewrite Z.eqb_refl.
    set (h1 := logged Sleep _).
    rewrite (IH fuel h1 a rest eq_refl Ha ltac:(lia)).
    cbn. now rewrite <- !app_assoc.
Qed.

(** X26. Recovery from a suspend: [snd_pcm_resume] is called again, one
    second of sleep apart, for as long as it answers [-EAGAIN];
    [snd_pcm_prepare] is called once after that if and only if the last
    answer of [snd_pcm_resume] is negative; and [xrun_recovery] returns 0 in
    both cases, whatever [snd_pcm_prepare] answers. *)
Theorem xrun_recovery_suspend
    (h : snd_pcm_t) (k : nat) (a p : Z) (rest prest : list Z) :
  resume_answers h = replicate k (- EAGAIN) ++ a :: rest ->
  a <> - EAGAIN ->
  prepare_answers h = p :: prest ->
  xrun_recovery h (- ESTRPIPE)
  = Some (0,
          if a <? 0
          then mk_pcm (writei_answers h) prest rest
                      (calls h ++ concat (replicate k [Resume; Sleep])
                       ++ [Resume; Prepare])
          else mk_pcm (writei_answers h) (p :: prest) rest
                      (calls h ++ concat (replicate k [Resume; Sleep])
                       ++ [Resume])).
Proof.
  intros Hr Ha Hp. unfold xrun_recovery.
  change (- ESTRPIPE =? - EPIPE) with false. rewrite Z.eqb_refl. cbn iota.
  rewrite (resume_loop_retries k _ h a rest Hr Ha)
    by (rewrite Hr, length_app, length_replicate; lia).
  destruct (a <? 0).
  - unfold snd_pcm_prepare. cbn. rewrite Hp. unfold logged. cbn.
    now rewrite <- !app_assoc.
  - now rewrite Hp.
Qed.

Lemma xrun_recovery_suspend_witness :
  let h := mk_pcm [] [0] [-11; -11; -5; 0] [] in
  xrun_recovery h (- ESTRPIPE)
  = Some (0,
          if -5 <? 0
          then mk_pcm (writei_answers h) [] [0]
                      (calls h ++ concat (replicate 2 [Resume; Sleep])
                       ++ [Resume; Prepare])
          else mk_pcm (writei_answers h) [0] [0]
                      (calls h ++ concat (replicate 2 [Resume; Sleep])
                       ++ [Resume])).
Proof.
  intros h. apply (xrun_recovery_suspend h 2 (-5) 0 [0] []).
  - reflexivity.
  - discriminate.
  - reflexivity.
Defined.

(** *** [play] on hardware that takes every period *)

Lemma default_last_cons {A : Type} (a c : A) (cs : list A) :
  default a (last (c :: cs)) = default c (last cs).
Proof. rewrite last_cons. now destruct (last cs). Qed.

Lemma spec_play_accepting (P : Z) (cs : list (list Z)) :
  forall (d : AudioDevice) (h : snd_pcm_t) (rest : list Z),
  device_handle d = Some h ->
  Z.of_nat (period_size d) = P -> 0 < P < 2 ^ 31 ->
  writei_answers h = replicate (length cs) P ++ rest ->
  spec_play cs d
  = Returned
      (with_samples (default (samples d) (last cs))
         (with_handle
            (mk_pcm rest (prepare_answers h) (resume_answers h)
                    (calls h ++ map (Writei 0 P) cs))
            d)).
Proof.
  induction cs as [| c cs IH]; intros d h rest Hh HP Hp Hw.
  - cbn in *. rewrite app_nil_r. destruct d, h. cbn in *. now subst.
  - cbn [spec_play]. unfold playSamples at 1.
    cbn [device_handle with_samples period_size samples]. rewrite Hh, HP.
    rewrite int_of_small by lia.
    pose proof (playSamples_loop_partial (with_samples c d) P [P] 0
                  (length (writei_answers h)) h
                  (replicate (length cs) P ++ rest)) as H.
    rewrite Z.sub_0_r, Z.mul_0_l in H.
    rewrite H; clear H; cbn; try lia; try assumption.
    + erewrite (IH _ _ rest);
        [| reflexivity | exact HP | exact Hp | reflexivity].
      cbn [with_samples with_handle samples samples_bytes num_samples
             buffer_size period_size device_handle calls prepare_answers
             resume_answers map starts app].
      rewrite <- app_assoc, Z.sub_0_r, Z.mul_0_l.
      rewrite (default_last_cons (samples d) c cs). reflexivity.
    + repeat constructor. lia.
    + rewrite Hw. cbn. lia.
Qed.

(** X27. On hardware that takes every period in full, a well-formed [play]
    of [k] periods returns after exactly [k] writes, one per chunk of the
    caller's buffer and in the order of the buffer, each of the whole period
    from the start of the sample buffer; the sample buffer is left holding
    the last chunk. *)
Theorem play_on_accepting_hardware
    (buffer : list Z) (k : nat) (d : AudioDevice) (h : snd_pcm_t)
    (rest : list Z) :
  device_handle d = Some h ->
  (0 < period_size d)%nat -> Z.of_nat (period_size d) < 2 ^ 31 ->
  num_samples d = (period_size d * channels)%nat ->
  length (samples d) = num_samples d ->
  (k * num_samples d <= length buffer)%nat ->
  writei_answers h = replicate k (Z.of_nat (period_size d)) ++ rest ->
  play buffer (k * num_samples d) d
  = Returned
      (with_samples
         (default (samples d) (last (chunks (num_samples d) k buffer)))
         (with_handle
            (mk_pcm rest (prepare_answers h) (resume_answers h)
                    (calls h
                     ++ map (Writei 0 (Z.of_nat (period_size d)))
                            (chunks (num_samples d) k buffer)))
            d)).
Proof.
  intros Hh Hp0 Hp Hn Hs Hb Hw.
  assert (Hpos : (0 < num_samples d)%nat) by (unfold channels in Hn; lia).
  unfold play.
  destruct (decide (num_samples d = 0%nat)); [lia |].
  rewrite Nat.Div0.mod_mul.
  destruct (decide (0%nat = 0%nat)) as [_ | Hne]; [| contradiction].
  rewrite (play_loop_chunks buffer (num_samples d) (k * num_samples d) Hpos
             k (k * num_samples d) 0 d) by (try reflexivity; nia).
  rewrite drop_0.
  apply spec_play_accepting; try assumption; try reflexivity; try lia.
  assert (Hlen : forall n k l, length (chunks n k l) = k)
    by (intros n0 k0; induction k0; intros; cbn; auto).
  now rewrite Hlen.
Qed.

Lemma play_on_accepting_hardware_witness :
  let h := demo_handle [2; 2; 2] [] in
  let d := demo_device 2 h in
  let buffer := [1; 2; 3; 4; 5; 6; 7; 8] in
  play buffer (2 * num_samples d) d
  = Returned
      (with_samples
         (default (samples d) (last (chunks (num_samples d) 2 buffer)))
         (with_handle
            (mk_pcm [2] (prepare_answers h) (resume_answers h)
                    (calls h
                     ++ map (Writei 0 (Z.of_nat (period_size d)))
                            (chunks (num_samples d) 2 buffer)))
            d)).
Proof.
  intros h d buffer.
  apply (play_on_accepting_hardware buffer 2 d h [2]); cbn;
    first [reflexivity | lia].
Defined.

(** C7. For a device whose sample buffer holds [period_size × channels]
    samples: when [length] is not a multiple of that count, [play] fails its
    assertion with the device, its handle and the calls made on it
    untouched; when it is, and the caller's buffer holds [length] samples,
    [play] copies each chunk of that many samples in turn into the sample
    buffer and calls [playSamples] once after each copy, and on hardware
    that takes every period in full that is exactly one [snd_pcm_writei] per
    chunk, of the whole period from the start of the sample buffer and with
    that chunk in it, in the order of the caller's buffer, after which [play]
    returns. *)
Theorem play_rejects_or_plays_chunks
    (buffer : list Z) (len : nat) (d : AudioDevice) :
  (0 < period_size d)%nat ->
  num_samples d = (period_size d * channels)%nat ->
  length (samples d) = num_samples d ->
  ((len mod (period_size d * channels))%nat <> 0%nat ->
   play buffer len d = AssertFailed d
   /\ calls_at (play buffer len d) = Some (calls_of d))
  /\ ((len mod (period_size d * channels))%nat = 0%nat ->
      (len <= length buffer)%nat ->
      play buffer len d
      = spec_play (chunks (period_size d * channels)
                          (len / (period_size d * channels)) buffer) d
      /\ forall (h : snd_pcm_t) (rest : list Z),
           device_handle d = Some h ->
           Z.of_nat (period_size d) < 2 ^ 31 ->
           writei_answers h
           = replicate (len / (period_size d * channels))
                       (Z.of_nat (period_size d)) ++ rest ->
           play buffer len d
           = Returned
               (with_samples
                  (default (samples d)
                     (last (chunks (period_size d * channels)
                                   (len / (period_size d * channels)) buffer)))
                  (with_handle
                     (mk_pcm rest (prepare_answers h) (resume_answers h)
                        (calls h
                         ++ map (Writei 0 (Z.of_nat (period_size d)))
                                (chunks (period_size d * channels)
                                        (len / (period_size d * channels))
                                        buffer)))
                     d))).
Proof.
  intros Hp Hn Hs.
  destruct (play_asserts_or_runs_chunks buffer len d Hp Hn Hs) as [Hrej Hrun].
  split; [exact Hrej |].
  intros Hmod Hb. specialize (Hrun Hmod Hb). split; [exact Hrun |].
  intros h rest Hh Hp31 Hw. rewrite Hrun.
  apply spec_play_accepting; try assumption; try reflexivity; try lia.
  assert (Hlen : forall n k l, length (chunks n k l) = k)
    by (intros n0 k0; induction k0; intros; cbn; auto).
  now rewrite Hlen.
Qed.

Lemma play_rejects_or_plays_chunks_witness :
  let h := demo_handle [2; 2; 2] [] in
  let d := demo_device 2 h in
  play [1; 2; 3; 4; 5; 6; 7] 7 d = AssertFailed d
  /\ calls_at (play [1; 2; 3; 4; 5; 6; 7] 7 d) = Some []
  /\ play [1; 2; 3; 4; 5; 6; 7; 8] 8 d
     = Returned
         (with_samples [5; 6; 7; 8]
            (with_handle
               (mk_pcm [2] [] []
                       [Writei 0 2 [1; 2; 3; 4]; Writei 0 2 [5; 6; 7; 8]])
               d)).
Proof.
  intros h d.
  assert (Hd : (0 < period_size d)%nat
               /\ num_samples d = (period_size d * channels)%nat
               /\ length (samples d) = num_samples d)
    by (repeat split; cbn; lia).
  destruct Hd as (Hp & Hn & Hs).
  destruct (play_rejects_or_plays_chunks [1; 2; 3; 4; 5; 6; 7] 7 d Hp Hn Hs)
    as [Hrej _].
  destruct (play_rejects_or_plays_chunks [1; 2; 3; 4; 5; 6; 7; 8] 8 d Hp Hn Hs)
    as [_ Hrun].
  destruct Hrej as [Hfail Hcalls]; [cbn; lia |].
  destruct Hrun as [_ Hacc]; [reflexivity | cbn; lia |].
  split; [exact Hfail |]. split; [exact Hcalls |].
  apply (Hacc h [2]); [reflexivity | cbn; lia | reflexivity].
Defined.

(** *** Witnesses for two facts proved with the earlier ones *)


Lemma play_hpp_never_returns_witness :
  play_hpp [7; 9; 11; 13] (length [7; 9; 11; 13])
           (demo_device 2 (demo_handle [2; 2] []))
  <> Returned (demo_device 2 (demo_handle [] [])).
Proof.
  apply play_hpp_never_returns; cbn; first [reflexivity | lia].
Defined.

End AudioProps.

(** ** The templated [play] of AudioDevice.hpp against the [play] of
    AudioDevice.cpp *)

Module AudioHeader.
Import Audio AudioMore AudioFacts.





End AudioHeader.
